(** * harmonic: error-weighted endpoint selection

    A shallow embedding of [harmonic.go] (package [harmonic]) and the
    properties of [SelectService], [findCeilIn] and [getIndexedService].

    Conventions of the embedding.
    - Go's [int] values (the count, the indices) are [Z]; every index the
      code computes stays between -1 and the length of a slice, so no
      wrap-around of these is written.  The error counters are [uint64]:
      [1 + errcnt] and [errcnt + 1] wrap modulo 2^64 and the wrap is
      written out ([u64]); so is the wrap of the [int64] sum
      [int64(prefixes[prlen]) + 1] ([i64]).
    - A finite [float64] is given by its value, a rational.  The
      arithmetic of the code is followed where it is exact: on integers
      of magnitude at most 2^53.  Where it rounds, the result is
      [Rounded], a [float64] whose value the embedding does not give;
      the quotient by a zero divisor is [NonFinite].
    - [math.Pow] is not correctly rounded, so the effective error
      [uint64(math.Floor(math.Pow(float64(x), 1.5)))] is given only at the
      arguments 0 and 1, where the result of [math.Pow] is documented;
      elsewhere it is the parameter [pow_floor].
    - The conversion [int64(f)] truncates a finite [f] towards zero; when
      the truncated value is outside the range of [int64], and when [f]
      is not finite, Go leaves the result to the implementation.
    - A call returns, panics (an index out of range), blocks (the mutex
      is held), is left to the implementation ([Unspecified]) or depends
      on a rounded [float64] ([Untracked]).
    - The random draws are an oracle that the caller hands in. *)

From Stdlib Require Import ZArith QArith Lia.
From stdpp Require Import base numbers list strings gmap.
From Equations Require Import Equations.

Local Open Scope Z_scope.

(** ** Results of a call *)

Inductive outcome (A : Type) : Type :=
  | Returns (a : A)
  | Panics
  | Blocks
  | Unspecified
  | Untracked.
Arguments Returns {A} a.
Arguments Panics {A}.
Arguments Blocks {A}.
Arguments Unspecified {A}.
Arguments Untracked {A}.

#[global] Instance outcome_eq_dec {A : Type} `{EqDecision A} :
  EqDecision (outcome A).
Proof. solve_decision. Defined.

Definition obind {A B : Type} (o : outcome A) (k : A → outcome B) : outcome B :=
  match o with
  | Returns a => k a
  | Panics => Panics
  | Blocks => Blocks
  | Unspecified => Unspecified
  | Untracked => Untracked
  end.

Definition or_panic {A : Type} (o : option A) : outcome A :=
  match o with
  | Some a => Returns a
  | None => Panics
  end.

Notation "'do' x <- o ; k" := (obind o (λ x, k))
  (at level 10, x name, o at level 100, k at level 200).

(** The two [errors.New] values of the package, under the names the
    specification gives them. *)
Inductive error : Type :=
  | NoEndpoints
  | IndexOutOfRange.

Definition Error (e : error) : string :=
  match e with
  | NoEndpoints => "harmonic: servicelist is empty"
  | IndexOutOfRange => "harmonic: service index out of bounds"
  end.

(** ** Numbers *)

Definition u64 (x : Z) : Z := x mod 2 ^ 64.

(** An [int64] sum, wrapped into [-2^63, 2^63). *)
Definition i64 (x : Z) : Z := (x + 2 ^ 63) mod 2 ^ 64 - 2 ^ 63.

Definition in_int64 (z : Z) : Prop := - 2 ^ 63 <= z < 2 ^ 63.

#[global] Instance in_int64_dec z : Decision (in_int64 z).
Proof. unfold in_int64. apply _. Defined.

(** A [float64]: a finite one by its value; the result of arithmetic
    that rounds, whose value is not followed; an infinity or not a
    number. *)
Inductive float64 : Type :=
  | Finite (q : Q)
  | Rounded
  | NonFinite.

(** The [float64] whose value is the integer [z]. *)
Definition Fint (z : Z) : float64 := Finite (inject_Z z).

(** The integers that [float64] holds without a gap: sums and
    differences that stay among them are exact. *)
Definition exact (z : Z) : bool := (- 2 ^ 53 <=? z) && (z <=? 2 ^ 53).

Definition integer_of (q : Q) : option Z :=
  if (Qden q =? 1)%positive then Some (Qnum q) else None.

(** [x + y] on [float64]: a non-finite operand gives a non-finite sum;
    the sum of two integers is the integer sum when the operands and the
    sum have magnitude at most 2^53; every other sum may round. *)
Definition fadd (x y : float64) : float64 :=
  match x, y with
  | NonFinite, _ => NonFinite
  | _, NonFinite => NonFinite
  | Finite a, Finite b =>
      match integer_of a, integer_of b with
      | Some m, Some n =>
          if exact m && exact n && exact (m + n) then Fint (m + n) else Rounded
      | _, _ => Rounded
      end
  | _, _ => Rounded
  end.

(** The exact ceiling of the quotient [a / b], for [0 < b]. *)
Definition ceil_div (a b : Z) : Z := - ((- a) / b).

(** [math.Ceil(float64(a) / float64(b))] for [uint64] values [a] and [b].
    The quotient by zero is an infinity or not a number.  For [a] below
    2^53 the result is the exact ceiling: [float64(a)] is [a]; for [b]
    below 2^53 the quotient [a / b], when it is not an integer, is
    farther than [1 / b] from the integers next to it, which is more
    than the division rounds by ([a / b * 2^-53 < 1 / b]); for a larger
    [b] the rounded [float64(b)] is still above [a] and the quotient is
    0 or strictly between 0 and 1.  For [a] from 2^53 the conversion and
    the division round. *)
Definition ceil_quot (a b : Z) : float64 :=
  if b =? 0 then NonFinite
  else if a <? 2 ^ 53 then Fint (ceil_div a b)
  else Rounded.

(** The fraction of a rational is discarded towards zero. *)
Definition truncate (q : Q) : Z := Z.quot (Qnum q) (Z.pos (Qden q)).

(** [int64(f)]: the truncated value when [int64] holds it; otherwise,
    and for a non-finite [f], the result is implementation-dependent; a
    rounded [f] is not followed. *)
Definition int64_of (f : float64) : outcome Z :=
  match f with
  | Finite q =>
      if decide (in_int64 (truncate q)) then Returns (truncate q)
      else Unspecified
  | Rounded => Untracked
  | NonFinite => Unspecified
  end.

(** Indexing a slice with an [int]: out of range is a run-time panic. *)
Definition index {A : Type} (l : list A) (i : Z) : option A :=
  if i <? 0 then None else l !! Z.to_nat i.

(** [int64(prefixes[i])]. *)
Definition read (prefixes : list float64) (i : Z) : outcome Z :=
  match index prefixes i with
  | None => Panics
  | Some f => int64_of f
  end.

(** [make([]float64, n)]: a negative length is a run-time panic. *)
Definition make_floats (n : Z) : option (list float64) :=
  if n <? 0 then None else Some (replicate (Z.to_nat n) (Fint 0)).

(** ** Cluster state *)

(** Modelled from the spec: the declaration of [ClusterState] is not part
    of the sources; the fields are the ones [harmonic.go] reads
    ([servicelist], [numservices], [errormap], [remutex]), the counters
    are [uint64] as [GetError] returns them, and the mutex is its state,
    held ([true]) or free. *)
Record ClusterState : Type := mkClusterState {
  servicelist : list string;
  numservices : Z;
  errormap : gmap string Z;
  remutex : bool
}.

(** [cs.errormap[svc]]: a missing key reads as the zero value. *)
Definition errcnt_of (cs : ClusterState) (svc : string) : Z :=
  default 0 (errormap cs !! svc).

(** The invariant of construction: [count == length(endpoints)]. *)
Definition cs_wf (cs : ClusterState) : Prop :=
  numservices cs = Z.of_nat (length (servicelist cs)).

(** Every endpoint's counter is a [uint64] below the largest one, so that
    [1 + errcnt] and [errcnt + 1] do not wrap to 0. *)
Definition no_wrap (cs : ClusterState) : Prop :=
  Forall (λ svc, 0 <= errcnt_of cs svc < 2 ^ 64 - 1) (servicelist cs).

(** [cs.remutex.Lock()]: a call that finds the mutex held does not go on. *)
Definition Lock (cs : ClusterState) : option ClusterState :=
  if remutex cs then None
  else Some (mkClusterState (servicelist cs) (numservices cs) (errormap cs) true).

Definition Unlock (cs : ClusterState) : ClusterState :=
  mkClusterState (servicelist cs) (numservices cs) (errormap cs) false.

(** Two states with the same endpoints, count and counters. *)
Definition same_data (cs cs' : ClusterState) : Prop :=
  servicelist cs = servicelist cs' ∧ numservices cs = numservices cs' ∧
  errormap cs = errormap cs'.

(** ** Helpers that are not part of the sources *)

(** Modelled from the spec: [randomize] and [randomize64] are helpers of
    the package that are not part of the sources.  The two draws are an
    oracle handed to [SelectService]; by the spec a draw
    [randomize64(1, t + 1)] lies in the closed range [1, t], and the
    uniform choice [randomize(0, n)] is one of the [n] positions. *)
Record Rand : Type := mkRand {
  randomize : Z → Z → Z;
  randomize64 : Z → Z → Z
}.

Definition rand_in_range (rnd : Rand) : Prop :=
  ∀ lo hi, lo < hi →
    (lo <= randomize rnd lo hi < hi) ∧ (lo <= randomize64 rnd lo hi < hi).

Definition const_rand (u r : Z) : Rand := mkRand (λ _ _, u) (λ _ _, r).

(** Modelled from the spec: [roundrobin] is a helper of the package that
    is not part of the sources; the retry selects the endpoint at
    [(previousPosition + 1) mod count]. *)
Definition roundrobin (count prev : Z) : Z := (prev + 1) mod count.

(** A value for [pow_floor] in the runs below: the floor of the exact
    power 3/2, the integer square root of the cube. *)
Definition ideal_pow (x : Z) : Z := Z.sqrt (x ^ 3).

(** ** getIndexedService *)

Definition getIndexedService (cs : ClusterState) (idx : Z)
  : outcome (string * option error) :=
  if (idx <? 0) || (idx >=? numservices cs)
  then Returns (""%string, Some IndexOutOfRange)
  else match index (servicelist cs) idx with
       | Some svc => Returns (svc, None)
       | None => Panics
       end.

(** ** findCeilIn *)

(** One unfolding is one round of the loop; the first clause is the code
    after the [break].  [start], [end] and [mid] are not wrapped: for a
    window inside a slice they stay inside it. *)
Equations? findCeilIn (randx : Z) (prefixes : list float64) (start end_ : Z)
  : outcome Z by wf (Z.to_nat (end_ - start)) lt :=
  findCeilIn randx prefixes start end_ with decide (start >= end_) := {
    | left _ with read prefixes start := {
        | Returns p := Returns (if randx <=? p then start else -1)
        | Panics := Panics
        | Blocks := Blocks
        | Unspecified := Unspecified
        | Untracked := Untracked }
    | right _ with read prefixes (start + Z.shiftr (end_ - start) 1) := {
        | Returns p with decide (randx > p) := {
            | left _ :=
                findCeilIn randx prefixes
                  (start + Z.shiftr (end_ - start) 1 + 1) end_
            | right _ :=
                findCeilIn randx prefixes
                  start (start + Z.shiftr (end_ - start) 1) }
        | Panics := Panics
        | Blocks := Blocks
        | Unspecified := Unspecified
        | Untracked := Untracked } }.
Proof.
  all: rewrite Z.shiftr_div_pow2 by lia; change (2 ^ 1) with 2.
  all: pose proof (Z.div_le_upper_bound (end_ - start) 2 (end_ - start));
       pose proof (Z.div_pos (end_ - start) 2);
       pose proof (Z.div_lt (end_ - start) 2); lia.
Qed.

(** ** findCeilIn with its rounds counted *)

Definition tick {A : Type} (r : A * nat) : A * nat := (fst r, S (snd r)).

(** The loop of [findCeilIn] once more, returning beside the result the
    number of rounds that read a midpoint. *)
Equations? findCeilIn_counted (randx : Z) (prefixes : list float64)
    (start end_ : Z)
  : outcome Z * nat by wf (Z.to_nat (end_ - start)) lt :=
  findCeilIn_counted randx prefixes start end_ with decide (start >= end_) := {
    | left _ with read prefixes start := {
        | Returns p := (Returns (if randx <=? p then start else -1), O)
        | Panics := (Panics, O)
        | Blocks := (Blocks, O)
        | Unspecified := (Unspecified, O)
        | Untracked := (Untracked, O) }
    | right _ with read prefixes (start + Z.shiftr (end_ - start) 1) := {
        | Returns p with decide (randx > p) := {
            | left _ :=
                tick (findCeilIn_counted randx prefixes
                        (start + Z.shiftr (end_ - start) 1 + 1) end_)
            | right _ :=
                tick (findCeilIn_counted randx prefixes
                        start (start + Z.shiftr (end_ - start) 1)) }
        | Panics := (Panics, 1%nat)
        | Blocks := (Blocks, 1%nat)
        | Unspecified := (Unspecified, 1%nat)
        | Untracked := (Untracked, 1%nat) } }.
Proof.
  all: rewrite Z.shiftr_div_pow2 by lia; change (2 ^ 1) with 2.
  all: pose proof (Z.div_le_upper_bound (end_ - start) 2 (end_ - start));
       pose proof (Z.div_pos (end_ - start) 2);
       pose proof (Z.div_lt (end_ - start) 2); lia.
Qed.

Section harmonic.

(** [uint64(math.Floor(math.Pow(float64(x), 1.5)))] at a [uint64] value
    [x] other than 0 and 1, as the platform computes it.  [math.Pow] is
    not correctly rounded (at 64 its result can fall below 512), the
    conversion of [x] to [float64] rounds from 2^53, and the conversion of
    a power from 2^64 to [uint64] is left to the implementation. *)
Variable pow_floor : Z → Z.

(** ** SelectService *)

(** [uint64(math.Floor(math.Pow(float64(x), 1.5)))]: [math.Pow(0, 1.5)]
    is 0 and [math.Pow(1, 1.5)] is 1, the special cases that [math.Pow]
    documents; every other result is the platform's, a [uint64]. *)
Definition floor_pow15 (x : Z) : Z :=
  if x =? 0 then 0 else if x =? 1 then 1 else u64 (pow_floor x).

(** Lines 30-38: the scan for the largest effective error, one endpoint
    per step. *)
Definition maxerr_step (cs : ClusterState) (maxerr : Z) (svc : string) : Z :=
  let errcnt := errcnt_of cs svc in
  let effectiveerr := floor_pow15 (u64 (1 + errcnt)) in
  if effectiveerr >=? maxerr then effectiveerr else maxerr.

Definition scan_maxerr (cs : ClusterState) : Z :=
  foldl (maxerr_step cs) 0 (servicelist cs).

(** Lines 46-49: [weights[i] = math.Ceil(float64(maxerr) / float64(errcnt+1))]
    for [i, svc := range cs.servicelist]. *)
Fixpoint fill_weights (cs : ClusterState) (maxerr : Z) (svcs : list string)
    (i : Z) (weights : list float64) : option (list float64) :=
  match svcs with
  | [] => Some weights
  | svc :: rest =>
      let errcnt := errcnt_of cs svc in
      match index weights i with
      | None => None
      | Some _ =>
          fill_weights cs maxerr rest (i + 1)
            (<[Z.to_nat i := ceil_quot maxerr (u64 (errcnt + 1))]> weights)
      end
  end.

(** Lines 51-57: the running sums, for [i := range weights]. *)
Fixpoint fill_prefixes (weights : list float64) (todo : nat) (i : Z)
    (prefixes : list float64) : option (list float64) :=
  match todo with
  | O => Some prefixes
  | S todo' =>
      w ← index weights i;
      _ ← index prefixes i;
      if i =? 0 then
        fill_prefixes weights todo' (i + 1) (<[Z.to_nat i := w]> prefixes)
      else
        p ← index prefixes (i - 1);
        fill_prefixes weights todo' (i + 1) (<[Z.to_nat i := fadd w p]> prefixes)
  end.

Definition compute_weights (cs : ClusterState) (maxerr : Z)
  : option (list float64) :=
  weights ← make_floats (numservices cs);
  fill_weights cs maxerr (servicelist cs) 0 weights.

Definition compute_prefixes (cs : ClusterState) (weights : list float64)
  : option (list float64) :=
  prefixes ← make_floats (numservices cs);
  fill_prefixes weights (length weights) 0 prefixes.

(** Lines 41 and 68: the uniform draw. *)
Definition uniform (rnd : Rand) (cs : ClusterState)
  : outcome (string * option error) :=
  getIndexedService cs (randomize rnd 0 (numservices cs)).

(** Lines 43-68: the weighted draw, and the fallback when the search
    returns -1. *)
Definition weighted (rnd : Rand) (cs : ClusterState) (maxerr : Z)
  : outcome (string * option error) :=
  do weights <- or_panic (compute_weights cs maxerr);
  do prefixes <- or_panic (compute_prefixes cs weights);
  let prlen := numservices cs - 1 in
  do total <- read prefixes prlen;
  let randx := randomize64 rnd 1 (i64 (total + 1)) in
  do ceil <- findCeilIn randx prefixes 0 prlen;
  if ceil >=? 0 then getIndexedService cs ceil else uniform rnd cs.

(** Lines 70-75: the position of [prevservice], the last one when it
    occurs several times, -1 when it does not occur.  The pair is the
    loop index and [prevserviceindex]. *)
Definition prev_step (prevservice : string) (acc : Z * Z) (svc : string)
  : Z * Z :=
  let '(psi, prevserviceindex) := acc in
  (psi + 1, if decide (svc = prevservice) then psi else prevserviceindex).

Definition scan_prev (cs : ClusterState) (prevservice : string) : Z :=
  snd (foldl (prev_step prevservice) (0, -1) (servicelist cs)).

(** The call returns its result and leaves a state; the deferred
    [Unlock] runs on every way out of the first attempt. *)
Definition SelectService (rnd : Rand) (cs : ClusterState) (retryindex : Z)
    (prevservice : string)
  : outcome (string * option error) * ClusterState :=
  if numservices cs =? 0 then
    (Returns (""%string, Some NoEndpoints), cs)
  else if numservices cs =? 1 then
    (getIndexedService cs 0, cs)
  else if retryindex =? 0 then
    match Lock cs with
    | None => (Blocks, cs)
    | Some cs1 =>
        let maxerr := scan_maxerr cs1 in
        let r := if maxerr =? 1 then uniform rnd cs1
                 else weighted rnd cs1 maxerr in
        (r, Unlock cs1)
    end
  else
    (getIndexedService cs
       (roundrobin (numservices cs) (scan_prev cs prevservice)), cs).

(** ** Notions used in the statements *)

(** The effective error of an endpoint, as the scan computes it. *)
Definition effective (cs : ClusterState) (svc : string) : Z :=
  floor_pow15 (u64 (1 + errcnt_of cs svc)).

(** The weighted branch within the integers that [float64] holds without
    a gap: no weight exceeds the largest effective error, so every
    weight and every running sum is below 2^53. *)
Definition exact_range (cs : ClusterState) : Prop :=
  numservices cs * scan_maxerr cs < 2 ^ 53.

(** No endpoint of the list has a recorded failure. *)
Definition no_failure (cs : ClusterState) : Prop :=
  Forall (λ svc, errcnt_of cs svc = 0) (servicelist cs).

#[global] Instance no_failure_dec cs : Decision (no_failure cs).
Proof. unfold no_failure. apply _. Defined.

(** The effective error of every endpoint with recorded failures is at
    least 2, as the floor of a power 3/2 of 2 or more is. *)
Definition penalised (cs : ClusterState) : Prop :=
  Forall (λ svc, errcnt_of cs svc ≠ 0 → 2 <= effective cs svc)
    (servicelist cs).

(** A monotonically non-decreasing array. *)
Definition nondecreasing (zs : list Z) : Prop :=
  ∀ i j x y, (i <= j)%nat → zs !! i = Some x → zs !! j = Some y → x <= y.

(** A monotonically non-decreasing array of rationals. *)
Definition Qnondecreasing (qs : list Q) : Prop :=
  ∀ i j x y, (i <= j)%nat → qs !! i = Some x → qs !! j = Some y → (x <= y)%Q.

(** From an entry that has reached the draw on, every entry has. *)
Definition reached_for_good (randx : Z) (ts : list Z) : Prop :=
  ∀ i j x y, (i <= j)%nat → ts !! i = Some x → ts !! j = Some y →
    randx <= x → randx <= y.

(** The entries of [prefixes] convert to the [int64] values [ts]. *)
Definition converts (prefixes : list float64) (ts : list Z) : Prop :=
  Forall2 (λ f t, int64_of f = Returns t) prefixes ts.

(** The running sums of a list of integers, from the left. *)
Fixpoint running (acc : Z) (ws : list Z) : list Z :=
  match ws with
  | [] => []
  | w :: rest => (w + acc) :: running (w + acc) rest
  end.

Definition Zsum (ws : list Z) : Z := foldr Z.add 0 ws.

(** The weights as integers, where no divisor wraps to zero. *)
Definition weights_of (cs : ClusterState) (maxerr : Z) : list Z :=
  (λ svc, ceil_div maxerr (errcnt_of cs svc + 1)) <$> servicelist cs.

(** The draw [randx] makes the search over the whole of [prefixes]
    return the index [i]. *)
Definition selects (prefixes : list float64) (i : Z) (randx : Z) : Prop :=
  findCeilIn randx prefixes 0 (Z.of_nat (length prefixes) - 1) = Returns i.

#[global] Instance selects_dec prefixes i randx :
  Decision (selects prefixes i randx).
Proof. unfold selects. apply _. Defined.

(** The number of draws in the closed range [1, total] that select [i]. *)
Definition draws_selecting (prefixes : list float64) (total : Z) (i : Z) : Z :=
  Z.of_nat (length (filter (selects prefixes i) (seqZ 1 total))).

(** The running sums of a list of [float64], as the loop of lines 51-57
    leaves them: the first entry is the first weight, each later one is
    the weight plus the entry before. *)
Fixpoint frunning_from (p : float64) (ws : list float64) : list float64 :=
  match ws with
  | [] => []
  | w :: rest => fadd w p :: frunning_from (fadd w p) rest
  end.

Definition frunning (ws : list float64) : list float64 :=
  match ws with
  | [] => []
  | w :: rest => w :: frunning_from w rest
  end.

(** ** Concrete states *)

Definition three : ClusterState :=
  mkClusterState ["s0"; "s1"; "s2"]%string 3
    (<["s0"%string := 0]> (<["s1"%string := 3]> (<["s2"%string := 0]> ∅))) false.

Definition twins : ClusterState :=
  mkClusterState ["a"; "a"]%string 2 (<["a"%string := 0]> ∅) false.

Definition nobody : ClusterState := mkClusterState [] 0 ∅ false.

Definition alone : ClusterState :=
  mkClusterState ["s0"]%string 1 (<["s0"%string := 7]> ∅) false.

Definition wrapped_busy : ClusterState :=
  mkClusterState ["a"; "b"]%string 2
    (<["a"%string := 2 ^ 64 - 1]> (<["b"%string := 1]> ∅)) false.

Definition wrapped_idle : ClusterState :=
  mkClusterState ["a"; "b"]%string 2
    (<["a"%string := 2 ^ 64 - 1]> (<["b"%string := 0]> ∅)) false.

(** An oracle whose draws are the lower bound of the range. *)
Definition low_rand : Rand := mkRand (λ lo _, lo) (λ lo _, lo).

(** The three endpoints once more, with other counters and the mutex
    held. *)
Definition three_held : ClusterState :=
  mkClusterState ["s0"; "s1"; "s2"]%string 3
    (<["s0"%string := 5]> (<["s2"%string := 9]> ∅)) true.

(** Arrays of finite entries, among them entries that are not integers. *)
Definition mixed_entries : list Q :=
  [inject_Z 5; (5 # 2)%Q; inject_Z 9; (-1 # 2)%Q].

Definition rising_entries : list Q := [inject_Z 8; (21 # 2)%Q; inject_Z 18].

(** ** The retry loop of the sample *)

Section sample.

(** Modelled from the spec: [IncrementError] and [ResetError] are methods
    of the package that are not part of the sources; the loop takes them
    as parameters, updates of the state by an endpoint identifier. *)
Variable IncrementError ResetError : ClusterState → string → ClusterState.

(** The response to the request of each round.  The stub
    [makeRequestToSvc] of the sample answers every round alike and is to
    be replaced by the service call; the response is a parameter, by the
    number of the round. *)
Variable makeRequestToSvc : Z → string.

(** [harmonic_sample.go], lines 17-36: one unfolding is one round.  The
    error of [SelectService] is dropped as in [svc, _ = ...]; the result
    is the final state and the endpoints the requests went to, in
    order. *)
Equations? retry_loop (rnd : Rand) (cs : ClusterState)
    (retryindex retrylimit : Z) (svc : string) (sent : list string)
  : outcome (ClusterState * list string)
  by wf (Z.to_nat (retrylimit + 1 - retryindex)) lt :=
  retry_loop rnd cs retryindex retrylimit svc sent
    with decide (retryindex <= retrylimit) := {
    | right _ := Returns (cs, sent)
    | left _ with SelectService rnd cs retryindex svc := {
        | (Panics, _) := Panics
        | (Blocks, _) := Blocks
        | (Unspecified, _) := Unspecified
        | (Untracked, _) := Untracked
        | (Returns (svc', _), cs')
            with decide (makeRequestToSvc retryindex = "SUCCESS"%string) := {
            | left _ := Returns (ResetError cs' svc', sent ++ [svc'])
            | right _ :=
                retry_loop rnd (IncrementError cs' svc') (retryindex + 1)
                  retrylimit svc' (sent ++ [svc']) } } }.
Proof. lia. Qed.

(** Lines 15-17: the loop from the first attempt, with as many rounds as
    there are endpoints. *)
Definition sample_rounds (rnd : Rand) (cs : ClusterState)
  : outcome (ClusterState * list string) :=
  retry_loop rnd cs 0 (Z.of_nat (length (servicelist cs)) - 1) ""%string [].

End sample.

(** A ledger update of the kind the specification describes for a failed
    attempt: the counter of the endpoint goes up by one. *)
Definition count_failure (cs : ClusterState) (svc : string) : ClusterState :=
  mkClusterState (servicelist cs) (numservices cs)
    (<[svc := u64 (errcnt_of cs svc + 1)]> (errormap cs)) (remutex cs).

(** A ledger update of the kind the specification describes for a
    success: the counter of the endpoint goes back to zero. *)
Definition clear_failures (cs : ClusterState) (svc : string) : ClusterState :=
  mkClusterState (servicelist cs) (numservices cs)
    (<[svc := 0]> (errormap cs)) (remutex cs).

(** The stub of the sample: every request fails. *)
Definition always_failed (round : Z) : string := "FAIlED".

(** The state of the sample after construction: three endpoints, every
    counter at zero. *)
Definition fresh_three : ClusterState :=
  mkClusterState ["s0"; "s1"; "s2"]%string 3
    (<["s0"%string := 0]> (<["s1"%string := 0]> (<["s2"%string := 0]> ∅)))
    false.

(** A service that answers with success in one round only. *)
Definition succeeds_at (r round : Z) : string :=
  if round =? r then "SUCCESS" else "FAIlED".

(** * Properties *)

(** ** Indexing *)

Lemma index_Some {A : Type} (l : list A) (i : Z) (x : A) :
  index l i = Some x ↔ 0 <= i ∧ l !! Z.to_nat i = Some x.
Proof.
  unfold index. destruct (Z.ltb_spec i 0); split.
  - discriminate.
  - intros [? _]. lia.
  - intros Hx. split; [assumption|exact Hx].
  - intros [_ Hx]. exact Hx.
Qed.

Lemma index_in_range {A : Type} (l : list A) (i : Z) :
  0 <= i < Z.of_nat (length l) → ∃ x, index l i = Some x.
Proof.
  intros Hi. destruct (lookup_lt_is_Some_2 l (Z.to_nat i)) as [x Hx]; [lia|].
  exists x. apply index_Some. split; [lia | exact Hx].
Qed.

Lemma index_of_nat {A : Type} (l : list A) (i : nat) :
  index l (Z.of_nat i) = l !! i.
Proof.
  unfold index. destruct (Z.ltb_spec (Z.of_nat i) 0); [lia|].
  now rewrite Nat2Z.id.
Qed.

Lemma index_fmap {A B : Type} (f : A → B) (l : list A) (i : Z) :
  index (f <$> l) i = f <$> index l i.
Proof.
  unfold index. destruct (i <? 0); [reflexivity|]. apply list_lookup_fmap.
Qed.

Lemma truncate_inject_Z z : truncate (inject_Z z) = z.
Proof. unfold truncate. simpl. apply Z.quot_1_r. Qed.

Lemma int64_of_Fint z : in_int64 z → int64_of (Fint z) = Returns z.
Proof.
  intros Hz. unfold int64_of, Fint. rewrite truncate_inject_Z.
  now destruct (decide (in_int64 z)).
Qed.

Lemma converts_Fint zs : Forall in_int64 zs → converts (Fint <$> zs) zs.
Proof.
  induction 1 as [|z zs Hz _ IH]; [constructor|].
  constructor; [now apply int64_of_Fint|exact IH].
Qed.

Lemma read_converts prefixes ts i t :
  converts prefixes ts → index ts i = Some t → read prefixes i = Returns t.
Proof.
  intros Hc [Hi Ht]%index_Some. unfold read, index.
  destruct (Z.ltb_spec i 0); [lia|].
  destruct (Forall2_lookup_r _ _ _ _ _ Hc Ht) as (f & Hf & Hft).
  now rewrite Hf.
Qed.

Lemma read_in_range prefixes ts i :
  converts prefixes ts → 0 <= i < Z.of_nat (length ts) →
  ∃ t, index ts i = Some t ∧ read prefixes i = Returns t.
Proof.
  intros Hc Hi. destruct (index_in_range ts i Hi) as [t Ht].
  exists t. split; [exact Ht|]. now apply (read_converts prefixes ts).
Qed.

Lemma getIndexedService_in_range cs idx :
  cs_wf cs → 0 <= idx < numservices cs →
  ∃ svc, servicelist cs !! Z.to_nat idx = Some svc ∧
         getIndexedService cs idx = Returns (svc, None).
Proof.
  intros Hwf Hidx. unfold getIndexedService.
  destruct (Z.ltb_spec idx 0); [lia|].
  destruct (Z.geb_spec idx (numservices cs)); [lia|]. simpl.
  destruct (index_in_range (servicelist cs) idx) as [svc Hsvc].
  { red in Hwf. lia. }
  rewrite Hsvc. exists svc. split; [|reflexivity].
  now apply index_Some in Hsvc.
Qed.

Lemma getIndexedService_out_of_range cs idx :
  ¬ (0 <= idx < numservices cs) →
  getIndexedService cs idx = Returns (""%string, Some IndexOutOfRange).
Proof.
  intros Hidx. unfold getIndexedService.
  destruct (Z.ltb_spec idx 0); [reflexivity|].
  destruct (Z.geb_spec idx (numservices cs)); [reflexivity|lia].
Qed.

(** ** The retry scan *)

Lemma prev_fold_fst prevservice (l : list string) :
  fst (foldl (prev_step prevservice) (0, -1) l) = Z.of_nat (length l).
Proof.
  induction l as [|x l IH] using rev_ind; [reflexivity|].
  rewrite foldl_app, length_app. simpl.
  destruct (foldl _ _ l) as [psi pi]. simpl in *. lia.
Qed.

(** The scan leaves -1 when [prevservice] does not occur, and otherwise
    the last position that holds it. *)
Lemma prev_fold_snd prevservice (l : list string) :
  let r := snd (foldl (prev_step prevservice) (0, -1) l) in
  (r = -1 ∧ prevservice ∉ l) ∨
  (0 <= r < Z.of_nat (length l) ∧ l !! Z.to_nat r = Some prevservice ∧
   ∀ q, (Z.to_nat r < q)%nat → l !! q ≠ Some prevservice).
Proof.
  induction l as [|x l IH] using rev_ind.
  - left. split; [reflexivity|]. apply not_elem_of_nil.
  - simpl in *. rewrite foldl_app. simpl.
    pose proof (prev_fold_fst prevservice l) as Hfst.
    destruct (foldl _ _ l) as [psi pi]. simpl in *. subst psi.
    rewrite length_app. simpl.
    destruct (decide (x = prevservice)) as [->|Hne].
    + right. rewrite Nat2Z.id. split; [lia|]. split.
      * rewrite lookup_app_r by lia. now rewrite Nat.sub_diag.
      * intros q Hq. rewrite lookup_ge_None_2; [discriminate|].
        rewrite length_app. simpl. lia.
    + destruct IH as [[-> Hnot]|(Hr & Hat & Hlast)].
      * left. split; [reflexivity|].
        rewrite elem_of_app, list_elem_of_singleton. intros [?|?]; congruence.
      * right. split; [lia|]. split.
        -- rewrite lookup_app_l by lia. exact Hat.
        -- intros q Hq Hlk.
           destruct (decide (q < length l)%nat) as [Hlt|Hge].
           ++ rewrite lookup_app_l in Hlk by lia. now apply (Hlast q).
           ++ rewrite lookup_app_r in Hlk by lia.
              apply list_lookup_singleton_Some in Hlk. destruct Hlk. congruence.
Qed.

Lemma scan_prev_last cs prevservice (p : nat) :
  servicelist cs !! p = Some prevservice →
  (∀ q, (p < q)%nat → servicelist cs !! q ≠ Some prevservice) →
  scan_prev cs prevservice = Z.of_nat p.
Proof.
  intros Hp Hlast. unfold scan_prev.
  destruct (prev_fold_snd prevservice (servicelist cs))
    as [[_ Hnot]|(Hr & Hat & Hl)].
  - exfalso. apply Hnot. eapply list_elem_of_lookup_2; eauto.
  - destruct (Nat.lt_trichotomy (Z.to_nat (snd (foldl (prev_step prevservice)
                (0, -1) (servicelist cs)))) p) as [Hlt|[Heq|Hgt]].
    + exfalso. now apply (Hl p).
    + lia.
    + exfalso. now apply (Hlast _ Hgt).
Qed.

Lemma scan_prev_range cs prevservice :
  -1 <= scan_prev cs prevservice < Z.of_nat (length (servicelist cs)).
Proof.
  unfold scan_prev.
  destruct (prev_fold_snd prevservice (servicelist cs)) as [[-> _]|(Hr & _)]; lia.
Qed.

Lemma roundrobin_range count prev :
  0 < count → -1 <= prev < count →
  0 <= roundrobin count prev < count ∧
  (prev + 1 < count → roundrobin count prev = prev + 1) ∧
  (prev + 1 = count → roundrobin count prev = 0).
Proof.
  intros Hc Hp. unfold roundrobin. split; [apply Z.mod_pos_bound; lia|].
  split; intros H.
  - apply Z.mod_small. lia.
  - rewrite H. apply Z_mod_same_full.
Qed.

(** ** The paths of SelectService *)

Lemma SelectService_retry rnd cs retryindex prevservice :
  2 <= numservices cs → retryindex ≠ 0 →
  SelectService rnd cs retryindex prevservice =
  (getIndexedService cs
     (roundrobin (numservices cs) (scan_prev cs prevservice)), cs).
Proof.
  intros Hn Hr. unfold SelectService.
  destruct (Z.eqb_spec (numservices cs) 0); [lia|].
  destruct (Z.eqb_spec (numservices cs) 1); [lia|].
  destruct (Z.eqb_spec retryindex 0); [contradiction|reflexivity].
Qed.

Lemma Unlock_Lock cs cs1 : Lock cs = Some cs1 → Unlock cs1 = cs.
Proof.
  unfold Lock, Unlock. destruct cs as [l n m []]; simpl; [discriminate|].
  intros [= <-]. reflexivity.
Qed.

Lemma SelectService_single rnd cs retryindex prevservice :
  numservices cs = 1 →
  SelectService rnd cs retryindex prevservice = (getIndexedService cs 0, cs).
Proof. intros Hn. unfold SelectService. now rewrite Hn. Qed.

Lemma Lock_same_data cs cs1 : Lock cs = Some cs1 → same_data cs1 cs.
Proof.
  unfold Lock. destruct (remutex cs); [discriminate|].
  intros [= <-]. repeat split.
Qed.

Lemma errcnt_of_same cs cs' svc :
  same_data cs cs' → errcnt_of cs svc = errcnt_of cs' svc.
Proof. intros (_ & _ & Hm). unfold errcnt_of. now rewrite Hm. Qed.

Lemma scan_maxerr_same cs cs' :
  same_data cs cs' → scan_maxerr cs = scan_maxerr cs'.
Proof.
  intros Hs. unfold scan_maxerr. pose proof Hs as (Hl & _ & _). rewrite Hl.
  clear Hl. generalize 0.
  induction (servicelist cs') as [|svc l IH]; intros m; simpl;
    [reflexivity|].
  rewrite IH. replace (maxerr_step cs m svc) with (maxerr_step cs' m svc);
    [reflexivity|].
  unfold maxerr_step. now rewrite (errcnt_of_same cs cs' svc Hs).
Qed.

Lemma getIndexedService_same cs cs' idx :
  same_data cs cs' → getIndexedService cs idx = getIndexedService cs' idx.
Proof.
  intros (Hl & Hn & _). unfold getIndexedService. now rewrite Hl, Hn.
Qed.

Lemma uniform_same rnd cs cs' :
  same_data cs cs' → uniform rnd cs = uniform rnd cs'.
Proof.
  intros Hs. unfold uniform. destruct Hs as (Hl & Hn & Hm).
  rewrite Hn. now apply getIndexedService_same.
Qed.

Lemma fill_weights_same cs cs' maxerr svcs i weights :
  same_data cs cs' →
  fill_weights cs maxerr svcs i weights = fill_weights cs' maxerr svcs i weights.
Proof.
  intros Hs. revert i weights.
  induction svcs as [|svc rest IH]; intros i weights; simpl; [reflexivity|].
  rewrite (errcnt_of_same cs cs' svc Hs).
  destruct (index weights i); [apply IH|reflexivity].
Qed.

Lemma weighted_same rnd cs cs' maxerr :
  same_data cs cs' → weighted rnd cs maxerr = weighted rnd cs' maxerr.
Proof.
  intros Hs. unfold weighted, compute_weights, compute_prefixes.
  pose proof Hs as (Hl & Hn & Hm). rewrite Hl, Hn.
  destruct (make_floats (numservices cs')) as [w0|]; simpl; [|reflexivity].
  rewrite (fill_weights_same cs cs' maxerr _ _ _ Hs).
  destruct (fill_weights cs' maxerr (servicelist cs') 0 w0) as [weights|];
    simpl; [|reflexivity].
  destruct (fill_prefixes weights (length weights) 0 w0) as [prefixes|];
    simpl; [|reflexivity].
  destruct (read prefixes (numservices cs' - 1)) as [total| | | |]; simpl;
    try reflexivity.
  destruct (findCeilIn _ prefixes 0 (numservices cs' - 1)) as [ceil| | | |];
    simpl; try reflexivity.
  rewrite (getIndexedService_same cs cs' ceil Hs), (uniform_same rnd cs cs' Hs).
  reflexivity.
Qed.

Lemma SelectService_first rnd cs prevservice :
  2 <= numservices cs → remutex cs = false →
  SelectService rnd cs 0 prevservice =
  (if scan_maxerr cs =? 1 then uniform rnd cs
   else weighted rnd cs (scan_maxerr cs), cs).
Proof.
  intros Hn Hfree. unfold SelectService.
  destruct (Z.eqb_spec (numservices cs) 0); [lia|].
  destruct (Z.eqb_spec (numservices cs) 1); [lia|]. simpl.
  destruct (Lock cs) as [cs1|] eqn:Hlock.
  - pose proof (Lock_same_data cs cs1 Hlock) as Hs.
    rewrite (Unlock_Lock cs cs1 Hlock), (scan_maxerr_same cs1 cs Hs),
      (uniform_same rnd cs1 cs Hs), (weighted_same rnd cs1 cs _ Hs).
    reflexivity.
  - unfold Lock in Hlock. rewrite Hfree in Hlock. discriminate.
Qed.

(** The retry path returns the endpoint that follows the last position of
    [prevservice], cyclically. *)
Lemma retry_next rnd cs retryindex prevservice (p : nat) :
  cs_wf cs → retryindex ≠ 0 →
  servicelist cs !! p = Some prevservice →
  (∀ q, (p < q)%nat → servicelist cs !! q ≠ Some prevservice) →
  ∃ svc,
    servicelist cs !! Z.to_nat ((Z.of_nat p + 1) mod numservices cs) = Some svc ∧
    SelectService rnd cs retryindex prevservice = (Returns (svc, None), cs).
Proof.
  intros Hwf Hr Hp Hlast.
  pose proof (lookup_lt_Some _ _ _ Hp) as Hlen. red in Hwf.
  destruct (decide (numservices cs = 1)) as [H1|H1].
  - rewrite SelectService_single by assumption.
    assert (p = 0)%nat as -> by lia. rewrite H1. simpl.
    destruct (getIndexedService_in_range cs 0) as (svc & Hsvc & ->); [done|lia|].
    exists svc. split; [exact Hsvc|reflexivity].
  - rewrite SelectService_retry by lia.
    rewrite (scan_prev_last cs prevservice p) by assumption.
    destruct (roundrobin_range (numservices cs) (Z.of_nat p)) as (Hrange & _); [lia..|].
    destruct (getIndexedService_in_range cs _ Hwf Hrange) as (svc & Hsvc & ->).
    exists svc. split; [exact Hsvc|reflexivity].
Qed.

(** ** The search *)

Lemma mid_bounds start end_ :
  start < end_ →
  start <= start + Z.shiftr (end_ - start) 1 < end_.
Proof.
  intros H. rewrite Z.shiftr_div_pow2 by lia. change (2 ^ 1) with 2.
  pose proof (Z.div_pos (end_ - start) 2).
  pose proof (Z.div_lt (end_ - start) 2). lia.
Qed.

Lemma reached_index randx ts i j x y :
  reached_for_good randx ts → i <= j →
  index ts i = Some x → index ts j = Some y → randx <= x → randx <= y.
Proof.
  intros Hup Hij [Hi Hx]%index_Some [Hj Hy]%index_Some.
  apply (Hup (Z.to_nat i) (Z.to_nat j)); [lia|assumption..].
Qed.

Lemma nondecreasing_reached randx zs :
  nondecreasing zs → reached_for_good randx zs.
Proof.
  intros Hmono i j x y Hij Hx Hy Hr.
  pose proof (Hmono i j x y Hij Hx Hy). lia.
Qed.

(** The search over entries that convert, where an entry that has
    reached the draw is followed by such entries only. *)
Lemma findCeilIn_search randx prefixes ts start end_ :
  converts prefixes ts → reached_for_good randx ts →
  0 <= start <= end_ → end_ < Z.of_nat (length ts) →
  ∃ res last, findCeilIn randx prefixes start end_ = Returns res ∧
    index ts end_ = Some last ∧
    (randx <= last →
       start <= res <= end_ ∧
       (∃ x, index ts res = Some x ∧ randx <= x) ∧
       ∀ j x, start <= j < res → index ts j = Some x → x < randx) ∧
    (last < randx → res = -1).
Proof.
  intros Hc Hup Hse Hlen.
  funelim (findCeilIn randx prefixes start end_);
    try (pose proof (mid_bounds start end_ ltac:(lia)) as Hmid);
    match goal with
    | Hread : read prefixes ?i = _ |- _ =>
        destruct (read_in_range prefixes ts i Hc ltac:(lia)) as (t & Ht & Hrt);
        rewrite Hrt in Hread; try discriminate; injection Hread as ->
    end.
  - assert (start = end_) as -> by lia.
    exists (if randx <=? p then end_ else -1), p.
    split; [reflexivity|]. split; [assumption|].
    destruct (Z.leb_spec randx p); split; intros; try lia.
    split; [lia|]. split; [eauto|]. intros; lia.
  - destruct (H ts Hc Hup ltac:(lia) Hlen)
      as (res & last & Hres & Hlast & Hin & Hout).
    exists res, last. split; [exact Hres|]. split; [exact Hlast|].
    split; [|exact Hout]. intros Hle.
    destruct (Hin Hle) as (Hrange & Hat & Hbelow).
    split; [lia|]. split; [exact Hat|]. intros j x Hj Hjx.
    destruct (Z_le_gt_dec j (start + Z.shiftr (end_ - start) 1)).
    + destruct (Z_lt_le_dec x randx) as [Hlt|Hge]; [exact Hlt|].
      pose proof (reached_index randx ts j (start + Z.shiftr (end_ - start) 1)
                    x p Hup ltac:(lia) Hjx Ht ltac:(lia)).
      lia.
    + apply (Hbelow j); [lia|assumption].
  - destruct (H ts Hc Hup ltac:(lia) ltac:(lia))
      as (res & last & Hres & Hlast & Hin & _).
    rewrite Ht in Hlast. injection Hlast as <-.
    destruct (index_in_range ts end_ ltac:(lia)) as [last Hend].
    pose proof (reached_index randx ts (start + Z.shiftr (end_ - start) 1) end_
                  p last Hup ltac:(lia) Ht Hend ltac:(lia)).
    exists res, last. split; [exact Hres|]. split; [exact Hend|].
    split; [|lia]. intros _.
    destruct (Hin ltac:(lia)) as (Hrange & Hat & Hbelow).
    split; [lia|]. split; [exact Hat|exact Hbelow].
Qed.

(** ** The weights and their running sums *)

Lemma fill_weights_spec cs maxerr (svcs : list string) :
  ∀ (i : nat) (weights : list float64),
    (i + length svcs <= length weights)%nat →
    fill_weights cs maxerr svcs (Z.of_nat i) weights =
    Some (take i weights ++
          ((λ svc, ceil_quot maxerr (u64 (errcnt_of cs svc + 1))) <$> svcs) ++
          drop (i + length svcs) weights).
Proof.
  induction svcs as [|svc rest IH]; intros i weights Hlen; simpl in *.
  - rewrite Nat.add_0_r. now rewrite take_drop.
  - destruct (index_in_range weights (Z.of_nat i)) as [w Hw]; [lia|].
    rewrite Hw, Nat2Z.id.
    replace (Z.of_nat i + 1) with (Z.of_nat (S i)) by lia.
    rewrite IH by (rewrite length_insert; lia).
    rewrite index_of_nat in Hw.
    f_equal. rewrite (take_S_r _ _ (ceil_quot maxerr (u64 (errcnt_of cs svc + 1)))).
    + rewrite take_insert_ge by lia. rewrite <- app_assoc. simpl.
      rewrite drop_insert_lt by lia.
      now replace (i + S (length rest))%nat with (S (i + length rest)) by lia.
    + apply list_lookup_insert_eq. eapply lookup_lt_Some; eauto.
Qed.

Lemma ceil_quot_finite maxerr errcnt :
  0 <= errcnt < 2 ^ 64 - 1 → maxerr < 2 ^ 53 →
  ceil_quot maxerr (u64 (errcnt + 1)) = Fint (ceil_div maxerr (errcnt + 1)).
Proof.
  intros He Hm. unfold ceil_quot, u64.
  rewrite Z.mod_small by lia.
  destruct (Z.eqb_spec (errcnt + 1) 0); [lia|].
  destruct (Z.ltb_spec maxerr (2 ^ 53)); [reflexivity|lia].
Qed.

Lemma no_wrap_elem cs svc :
  no_wrap cs → svc ∈ servicelist cs → 0 <= errcnt_of cs svc < 2 ^ 64 - 1.
Proof. unfold no_wrap. rewrite Forall_forall. auto. Qed.

Lemma compute_weights_raw cs maxerr :
  cs_wf cs →
  compute_weights cs maxerr =
  Some ((λ svc, ceil_quot maxerr (u64 (errcnt_of cs svc + 1)))
          <$> servicelist cs).
Proof.
  intros Hwf. unfold compute_weights, make_floats. red in Hwf.
  destruct (Z.ltb_spec (numservices cs) 0); [lia|]. simpl.
  rewrite (fill_weights_spec cs maxerr (servicelist cs) 0)
    by (rewrite length_replicate; simpl; lia).
  simpl. rewrite drop_ge by (rewrite length_replicate; lia).
  now rewrite app_nil_r.
Qed.

Lemma compute_weights_finite cs maxerr :
  cs_wf cs → no_wrap cs → maxerr < 2 ^ 53 →
  compute_weights cs maxerr = Some (Fint <$> weights_of cs maxerr).
Proof.
  intros Hwf Hnw Hm. rewrite compute_weights_raw by assumption.
  f_equal. unfold weights_of. rewrite <- list_fmap_compose.
  apply list_fmap_ext. intros i svc Hsvc. simpl.
  apply ceil_quot_finite; [|exact Hm]. apply (no_wrap_elem cs svc Hnw).
  eapply list_elem_of_lookup_2; eauto.
Qed.

Lemma length_running acc ws : length (running acc ws) = length ws.
Proof. revert acc. induction ws; intros; simpl; auto. Qed.

Lemma running_lookup ws : ∀ acc (i : nat),
  (i < length ws)%nat →
  running acc ws !! i = Some (acc + Zsum (take (S i) ws)).
Proof.
  induction ws as [|w rest IH]; intros acc i Hi; simpl in *; [lia|].
  destruct i as [|i]; simpl.
  - unfold Zsum. simpl. f_equal. lia.
  - rewrite IH by lia. unfold Zsum. simpl. f_equal. lia.
Qed.

Lemma Zsum_app l k : Zsum (l ++ k) = Zsum l + Zsum k.
Proof. unfold Zsum. induction l; simpl; lia. Qed.

Lemma Zsum_take_S ws (i : nat) w :
  ws !! i = Some w → Zsum (take (S i) ws) = w + Zsum (take i ws).
Proof.
  intros Hw. rewrite (take_S_r _ _ _ Hw), Zsum_app. unfold Zsum. simpl. lia.
Qed.

Lemma Zsum_nonneg ws : Forall (λ w, 0 <= w) ws → 0 <= Zsum ws.
Proof. unfold Zsum. induction 1; simpl; lia. Qed.

Lemma Zsum_take_mono ws (i j : nat) :
  Forall (λ w, 0 <= w) ws → (i <= j)%nat →
  Zsum (take i ws) <= Zsum (take j ws).
Proof.
  intros Hpos Hij. replace j with (i + (j - i))%nat by lia.
  rewrite <- take_take_drop, Zsum_app.
  assert (0 <= Zsum (take (j - i) (drop i ws))); [|lia].
  apply Zsum_nonneg. apply Forall_take, Forall_drop, Hpos.
Qed.

Lemma running_nondecreasing ws :
  Forall (λ w, 0 <= w) ws → nondecreasing (running 0 ws).
Proof.
  intros Hpos i j x y Hij Hx Hy.
  pose proof (lookup_lt_Some _ _ _ Hx) as Hi.
  pose proof (lookup_lt_Some _ _ _ Hy) as Hj.
  rewrite length_running in Hi, Hj.
  rewrite running_lookup in Hx, Hy by assumption.
  injection Hx as <-. injection Hy as <-.
  pose proof (Zsum_take_mono ws (S i) (S j) Hpos). lia.
Qed.

Lemma fadd_Fint m n :
  exact m = true → exact n = true → exact (m + n) = true →
  fadd (Fint m) (Fint n) = Fint (m + n).
Proof. intros Hm Hn Hs. unfold fadd. simpl. now rewrite Hm, Hn, Hs. Qed.

Lemma exact_between z : 0 <= z <= 2 ^ 53 → exact z = true.
Proof.
  intros Hz. unfold exact.
  destruct (Z.leb_spec (- 2 ^ 53) z); [|lia].
  destruct (Z.leb_spec z (2 ^ 53)); [reflexivity|lia].
Qed.

Lemma fill_prefixes_spec ws : ∀ (todo i : nat) (prefixes : list float64),
  Forall (λ w, 0 <= w) ws → Zsum ws <= 2 ^ 53 →
  (i + todo = length ws)%nat → length prefixes = length ws →
  take i prefixes = Fint <$> take i (running 0 ws) →
  fill_prefixes (Fint <$> ws) todo (Z.of_nat i) prefixes
    = Some (Fint <$> running 0 ws).
Proof.
  induction todo as [|todo IH]; intros i prefixes Hpos Hsum Hi Hlen Hinv; simpl.
  - rewrite !take_ge in Hinv by (rewrite ?length_running; lia). now subst.
  - destruct (lookup_lt_is_Some_2 ws i) as [w Hw]; [lia|].
    destruct (lookup_lt_is_Some_2 prefixes i) as [old Hold]; [lia|].
    pose proof (running_lookup ws 0 i ltac:(lia)) as Hrun.
    rewrite (Zsum_take_S _ _ _ Hw) in Hrun.
    rewrite !index_of_nat, list_lookup_fmap, Hw, Hold. simpl.
    rewrite Nat2Z.id.
    replace (Z.of_nat i + 1) with (Z.of_nat (S i)) by lia.
    assert (∀ v, v = Fint (w + Zsum (take i ws)) →
              fill_prefixes (Fint <$> ws) todo (Z.of_nat (S i))
                (<[i := v]> prefixes) = Some (Fint <$> running 0 ws)) as Hnext.
    { intros v ->. apply IH; [assumption|assumption|lia|now rewrite length_insert|].
      rewrite (take_S_r _ _ (Fint (w + Zsum (take i ws))))
        by (apply list_lookup_insert_eq; lia).
      rewrite take_insert_ge by lia.
      rewrite (take_S_r _ _ _ Hrun), fmap_app, Hinv. simpl. reflexivity. }
    destruct (Z.eqb_spec (Z.of_nat i) 0) as [H0|H0].
    + apply Hnext. assert (i = 0)%nat as -> by lia. simpl.
      unfold Zsum. simpl. f_equal. lia.
    + replace (Z.of_nat i - 1) with (Z.of_nat (i - 1)) by lia.
      rewrite index_of_nat.
      assert (prefixes !! (i - 1)%nat = Some (Fint (Zsum (take i ws)))) as ->.
      { rewrite <- (lookup_take_lt prefixes i) by lia. rewrite Hinv.
        rewrite list_lookup_fmap, lookup_take_lt by lia.
        rewrite running_lookup by lia.
        replace (S (i - 1)) with i by lia. reflexivity. }
      simpl. apply Hnext.
      pose proof (Zsum_take_mono ws 0 i Hpos ltac:(lia)) as Hlo.
      rewrite take_0 in Hlo. change (Zsum []) with 0 in Hlo.
      pose proof (Zsum_take_mono ws (S i) (length ws) Hpos ltac:(lia)) as Hhi.
      rewrite (take_ge ws (length ws)) in Hhi by lia.
      rewrite (Zsum_take_S _ _ _ Hw) in Hhi.
      assert (0 <= w) by (eapply Forall_lookup_1 in Hpos; eauto).
      apply fadd_Fint; apply exact_between; lia.
Qed.

Lemma compute_prefixes_finite cs ws :
  cs_wf cs → length ws = length (servicelist cs) →
  Forall (λ w, 0 <= w) ws → Zsum ws <= 2 ^ 53 →
  compute_prefixes cs (Fint <$> ws) = Some (Fint <$> running 0 ws).
Proof.
  intros Hwf Hlen Hpos Hsum. unfold compute_prefixes, make_floats. red in Hwf.
  destruct (Z.ltb_spec (numservices cs) 0); [lia|]. simpl.
  rewrite length_fmap.
  apply (fill_prefixes_spec ws (length ws) 0); [assumption|assumption|lia| |reflexivity].
  rewrite length_replicate. lia.
Qed.

Lemma length_weights_of cs maxerr :
  length (weights_of cs maxerr) = length (servicelist cs).
Proof. unfold weights_of. apply length_fmap. Qed.

Lemma running_last ws :
  ws ≠ [] →
  index (running 0 ws) (Z.of_nat (length ws) - 1) = Some (Zsum ws).
Proof.
  intros Hne. assert (0 < length ws)%nat by (destruct ws; simpl; [done|lia]).
  replace (Z.of_nat (length ws) - 1) with (Z.of_nat (length ws - 1)) by lia.
  rewrite index_of_nat, running_lookup by lia.
  replace (S (length ws - 1)) with (length ws) by lia.
  rewrite take_ge by lia. f_equal.
Qed.

Lemma ceil_div_nonneg a b : 0 <= a → 0 < b → 0 <= ceil_div a b.
Proof.
  intros Ha Hb. unfold ceil_div.
  assert ((- a) / b <= 0); [|lia].
  apply Z.lt_succ_r, Z.div_lt_upper_bound; lia.
Qed.

Lemma weights_of_nonneg cs maxerr :
  no_wrap cs → 0 <= maxerr → Forall (λ w, 0 <= w) (weights_of cs maxerr).
Proof.
  intros Hnw Hm. unfold weights_of. rewrite Forall_fmap.
  eapply Forall_impl; [exact Hnw|]. intros svc Hsvc. cbv beta in *.
  apply ceil_div_nonneg; lia.
Qed.

Lemma ceil_div_le a b : 0 <= a → 1 <= b → ceil_div a b <= a.
Proof.
  intros Ha Hb. unfold ceil_div.
  assert (- a <= (- a) / b); [|lia].
  apply Z.div_le_lower_bound; nia.
Qed.

Lemma ceil_div_one a : ceil_div a 1 = a.
Proof. unfold ceil_div. rewrite Z.div_1_r. lia. Qed.

Lemma ceil_div_lt a b : 2 <= a → 2 <= b → ceil_div a b < a.
Proof.
  intros Ha Hb. unfold ceil_div.
  assert (- a + 1 <= (- a) / b); [|lia].
  apply Z.div_le_lower_bound; nia.
Qed.

Lemma ceil_div_antitone a b b' :
  0 <= a → 1 <= b <= b' → ceil_div a b' <= ceil_div a b.
Proof.
  intros Ha Hb. unfold ceil_div.
  assert ((- a) / b <= (- a) / b'); [|lia].
  apply Z.div_le_lower_bound; [lia|].
  pose proof (Z.mul_div_le (- a) b ltac:(lia)).
  assert ((- a) / b <= 0) by (apply Z.div_le_upper_bound; lia).
  nia.
Qed.

Lemma Zsum_le_length ws m :
  Forall (λ w, w <= m) ws → Zsum ws <= Z.of_nat (length ws) * m.
Proof. unfold Zsum. induction 1; simpl length; simpl foldr; lia. Qed.

Lemma weights_of_le cs maxerr :
  no_wrap cs → 0 <= maxerr → Forall (λ w, w <= maxerr) (weights_of cs maxerr).
Proof.
  intros Hnw Hm. unfold weights_of. rewrite Forall_fmap.
  eapply Forall_impl; [exact Hnw|]. intros svc Hsvc. cbv beta in *.
  apply ceil_div_le; lia.
Qed.

Lemma i64_small z : in_int64 z → i64 z = z.
Proof. unfold in_int64, i64. intros Hz. rewrite Z.mod_small; lia. Qed.

Lemma running_in_int64 ws :
  Forall (λ w, 0 <= w) ws → Zsum ws <= 2 ^ 53 →
  Forall in_int64 (running 0 ws).
Proof.
  intros Hpos Hsum. apply Forall_lookup. intros i x Hx.
  pose proof (lookup_lt_Some _ _ _ Hx) as Hi. rewrite length_running in Hi.
  rewrite running_lookup in Hx by assumption. injection Hx as <-.
  pose proof (Zsum_take_mono ws 0 (S i) Hpos ltac:(lia)) as Hlo.
  rewrite take_0 in Hlo. change (Zsum []) with 0 in Hlo.
  pose proof (Zsum_take_mono ws (S i) (length ws) Hpos ltac:(lia)) as Hhi.
  rewrite (take_ge ws (length ws)) in Hhi by lia.
  unfold in_int64. lia.
Qed.

(** The sums of the weights of a state within the exact range. *)
Lemma weights_in_range cs maxerr :
  cs_wf cs → no_wrap cs → 0 <= maxerr → numservices cs * maxerr < 2 ^ 53 →
  Forall (λ w, 0 <= w) (weights_of cs maxerr) ∧
  Zsum (weights_of cs maxerr) <= 2 ^ 53 ∧
  Forall in_int64 (running 0 (weights_of cs maxerr)).
Proof.
  intros Hwf Hnw Hm Hr.
  pose proof (weights_of_nonneg cs maxerr Hnw Hm) as Hpos.
  pose proof (Zsum_le_length _ _ (weights_of_le cs maxerr Hnw Hm)) as Hle.
  rewrite length_weights_of in Hle. red in Hwf. rewrite <- Hwf in Hle.
  split; [exact Hpos|]. split; [lia|].
  apply running_in_int64; [exact Hpos|lia].
Qed.

(** The weighted draw within the exact range: the search runs over the
    running sums of the integer weights with a draw from [1, total]. *)
Lemma weighted_finite rnd cs maxerr :
  cs_wf cs → no_wrap cs → 1 <= numservices cs →
  0 <= maxerr → numservices cs * maxerr < 2 ^ 53 →
  weighted rnd cs maxerr =
  do ceil <- findCeilIn
               (randomize64 rnd 1 (Zsum (weights_of cs maxerr) + 1))
               (Fint <$> running 0 (weights_of cs maxerr))
               0 (numservices cs - 1);
  if ceil >=? 0 then getIndexedService cs ceil else uniform rnd cs.
Proof.
  intros Hwf Hnw Hn Hm Hr. unfold weighted.
  destruct (weights_in_range cs maxerr Hwf Hnw Hm Hr) as (Hpos & Hsum & Hin).
  assert (maxerr < 2 ^ 53) as Hm' by nia.
  rewrite (compute_weights_finite cs maxerr Hwf Hnw Hm'). simpl.
  rewrite (compute_prefixes_finite cs _ Hwf (length_weights_of cs maxerr)
             Hpos Hsum).
  simpl.
  assert (weights_of cs maxerr ≠ []) as Hne.
  { intros Hnil. pose proof (length_weights_of cs maxerr) as Hl.
    rewrite Hnil in Hl. simpl in Hl. red in Hwf. lia. }
  rewrite (read_converts _ (running 0 (weights_of cs maxerr)) _
             (Zsum (weights_of cs maxerr)) (converts_Fint _ Hin)).
  - simpl. rewrite i64_small; [reflexivity|].
    pose proof (Zsum_nonneg _ Hpos). unfold in_int64. lia.
  - red in Hwf. rewrite Hwf, <- (length_weights_of cs maxerr).
    now apply running_last.
Qed.

(** ** The scan for the largest effective error *)

Lemma maxerr_fold_spec cs (l : list string) (m : Z) :
  let r := foldl (maxerr_step cs) m l in
  m <= r ∧ (∀ svc, svc ∈ l → effective cs svc <= r) ∧
  (r = m ∨ ∃ svc, svc ∈ l ∧ r = effective cs svc).
Proof.
  revert m. induction l as [|x l IH]; intros m; simpl.
  - split; [lia|]. split; [|now left]. intros svc Hin.
    now apply elem_of_nil in Hin.
  - destruct (IH (maxerr_step cs m x)) as (Hge & Hall & Hwit).
    assert (m <= maxerr_step cs m x ∧ effective cs x <= maxerr_step cs m x ∧
            (maxerr_step cs m x = m ∨ maxerr_step cs m x = effective cs x))
      as (H1 & H2 & H3).
    { unfold maxerr_step. cbv zeta. fold (effective cs x).
      destruct (Z.geb_spec (effective cs x) m); lia. }
    split; [lia|]. split.
    + intros svc [->|Hin]%elem_of_cons; [lia|now apply Hall].
    + destruct Hwit as [Hr|(svc & Hin & Hr)].
      * destruct H3 as [H3|H3]; [left; lia|].
        right. exists x. split; [apply elem_of_cons; now left|lia].
      * right. exists svc. split; [apply elem_of_cons; now right|exact Hr].
Qed.

Lemma effective_zero cs svc : errcnt_of cs svc = 0 → effective cs svc = 1.
Proof. intros H. unfold effective. rewrite H. reflexivity. Qed.

Lemma floor_pow15_nonneg x : 0 <= floor_pow15 x.
Proof.
  unfold floor_pow15, u64. destruct (x =? 0); [lia|].
  destruct (x =? 1); [lia|]. apply Z.mod_pos_bound. lia.
Qed.

Lemma effective_nonneg cs svc : 0 <= effective cs svc.
Proof. apply floor_pow15_nonneg. Qed.

(** Without a recorded failure the largest effective error is 1. *)
Lemma scan_maxerr_no_failure cs :
  servicelist cs ≠ [] → no_failure cs → scan_maxerr cs = 1.
Proof.
  intros Hne Hzero. unfold no_failure in Hzero.
  rewrite Forall_forall in Hzero. unfold scan_maxerr.
  destruct (maxerr_fold_spec cs (servicelist cs) 0) as (Hge & Hall & Hwit).
  destruct Hwit as [H0|(svc & Hin & ->)].
  - destruct (servicelist cs) as [|x l] eqn:Hl; [done|].
    assert (x ∈ x :: l) as Hx by (apply elem_of_cons; now left).
    specialize (Hall x Hx).
    rewrite effective_zero in Hall by (apply Hzero, Hx). lia.
  - apply effective_zero, Hzero, Hin.
Qed.

Lemma scan_maxerr_nonneg cs : 0 <= scan_maxerr cs.
Proof.
  unfold scan_maxerr.
  now destruct (maxerr_fold_spec cs (servicelist cs) 0) as (Hge & _).
Qed.

(** ** Counting the draws that select an index *)

Section filter.
Context {A : Type} (P Q : A → Prop).
Context `{!∀ x, Decision (P x)} `{!∀ x, Decision (Q x)}.

Lemma filter_agree (l : list A) :
  (∀ x, x ∈ l → (P x ↔ Q x)) → filter P l = filter Q l.
Proof.
  induction l as [|x l IH]; intros Hagree; [reflexivity|].
  assert (x ∈ x :: l) as Hx by (apply elem_of_cons; now left).
  rewrite !filter_cons.
  rewrite IH by (intros y Hy; apply Hagree, elem_of_cons; now right).
  destruct (decide (P x)) as [HP|HP], (decide (Q x)) as [HQ|HQ];
    try reflexivity; exfalso;
    apply (Hagree x Hx) in HP || apply (Hagree x Hx) in HQ; contradiction.
Qed.

Lemma filter_all (l : list A) : (∀ x, x ∈ l → P x) → filter P l = l.
Proof.
  induction l as [|x l IH]; intros Hall; [reflexivity|].
  rewrite filter_cons_True by (apply Hall, elem_of_cons; now left).
  f_equal. apply IH. intros y Hy. apply Hall, elem_of_cons. now right.
Qed.

Lemma filter_none (l : list A) : (∀ x, x ∈ l → ¬ P x) → filter P l = [].
Proof.
  induction l as [|x l IH]; intros Hnone; [reflexivity|].
  rewrite filter_cons_False by (apply Hnone, elem_of_cons; now left).
  apply IH. intros y Hy. apply Hnone, elem_of_cons. now right.
Qed.
End filter.

(** Among the draws 1, ..., t exactly b - a lie in the half-open
    interval (a, b]. *)
Lemma count_interval (a b t : Z) :
  0 <= a <= b → b <= t →
  Z.of_nat (length (filter (λ r, a < r <= b) (seqZ 1 t))) = b - a.
Proof.
  intros Hab Hbt.
  replace t with (a + ((b - a) + (t - b))) by lia.
  rewrite seqZ_app, seqZ_app by lia.
  rewrite !filter_app, !length_app.
  rewrite (filter_none _ (seqZ 1 a)), (filter_all _ (seqZ (1 + a) (b - a))),
          (filter_none _ (seqZ (1 + a + (b - a)) (t - b))).
  - simpl. rewrite length_seqZ. lia.
  - intros r Hr%elem_of_seqZ. lia.
  - intros r Hr%elem_of_seqZ. lia.
  - intros r Hr%elem_of_seqZ. lia.
Qed.

Lemma running_index ws (k : nat) :
  (k < length ws)%nat →
  index (running 0 ws) (Z.of_nat k) = Some (Zsum (take (S k) ws)).
Proof. intros Hk. now rewrite index_of_nat, running_lookup. Qed.

(** A draw selects the index whose running sum is the first to reach it. *)
Lemma selects_interval ws (i : nat) (r : Z) :
  Forall (λ w, 0 <= w) ws → Zsum ws <= 2 ^ 53 →
  (i < length ws)%nat → 1 <= r <= Zsum ws →
  selects (Fint <$> running 0 ws) (Z.of_nat i) r ↔
  Zsum (take i ws) < r <= Zsum (take (S i) ws).
Proof.
  intros Hpos Hsum Hi Hr. unfold selects.
  rewrite length_fmap, length_running.
  assert (ws ≠ []) as Hne by (intros ->; simpl in Hi; lia).
  destruct (findCeilIn_search r (Fint <$> running 0 ws) (running 0 ws)
              0 (Z.of_nat (length ws) - 1)
              (converts_Fint _ (running_in_int64 ws Hpos Hsum))
              (nondecreasing_reached r _ (running_nondecreasing ws Hpos)))
    as (res & last & Hres & Hlast & Hin & _);
    [lia|rewrite length_running; lia|].
  rewrite running_last in Hlast by assumption. injection Hlast as <-.
  destruct (Hin ltac:(lia)) as (Hrange & (x & Hx & Hrx) & Hbelow).
  rewrite Hres.
  assert (res = Z.of_nat (Z.to_nat res)) as Hnat by lia.
  rewrite Hnat, running_index in Hx by lia. injection Hx as <-.
  assert (Zsum (take 0 ws) = 0) as H0 by (now rewrite take_0).
  split.
  - intros [= Heq]. assert (Z.to_nat res = i) as Hi' by lia.
    rewrite Hi' in Hrx. split; [|exact Hrx].
    destruct i as [|i]; [lia|].
    apply (Hbelow (Z.of_nat i)); [lia|]. apply running_index. lia.
  - intros [Hlo Hhi]. f_equal.
    destruct (Z.lt_trichotomy res (Z.of_nat i)) as [Hlt|[Heq|Hgt]].
    + pose proof (Zsum_take_mono ws (S (Z.to_nat res)) i Hpos ltac:(lia)). lia.
    + exact Heq.
    + pose proof (Hbelow (Z.of_nat i) _ ltac:(lia) (running_index ws i Hi)). lia.
Qed.

Lemma draws_selecting_weight ws (i : nat) w :
  Forall (λ w, 0 <= w) ws → Zsum ws <= 2 ^ 53 → ws !! i = Some w →
  draws_selecting (Fint <$> running 0 ws) (Zsum ws) (Z.of_nat i) = w.
Proof.
  intros Hpos Hsum Hw. pose proof (lookup_lt_Some _ _ _ Hw) as Hi.
  unfold draws_selecting.
  rewrite (filter_agree _ (λ r, Zsum (take i ws) < r <= Zsum (take (S i) ws))).
  - pose proof (Zsum_take_S ws i w Hw).
    pose proof (Zsum_take_mono ws 0 i Hpos ltac:(lia)) as H0.
    rewrite take_0 in H0. change (Zsum []) with 0 in H0.
    pose proof (Zsum_take_mono ws (S i) (length ws) Hpos ltac:(lia)) as Hall.
    rewrite (take_ge ws (length ws)) in Hall by lia.
    assert (0 <= w) by (eapply Forall_lookup_1 in Hpos; eauto).
    rewrite count_interval; lia.
  - intros r Hr%elem_of_seqZ. apply selects_interval; [assumption..|lia].
Qed.

(** ** The first attempt returns an endpoint *)

Lemma ceil_div_pos a b : 1 <= a → 0 < b → 1 <= ceil_div a b.
Proof.
  intros Ha Hb. unfold ceil_div.
  assert ((- a) / b < 0); [|lia].
  apply Z.div_lt_upper_bound; lia.
Qed.

Lemma Zsum_ge_length ws :
  Forall (λ w, 1 <= w) ws → Z.of_nat (length ws) <= Zsum ws.
Proof. unfold Zsum. induction 1; simpl length; simpl foldr; lia. Qed.

Lemma weights_of_pos cs maxerr :
  no_wrap cs → 1 <= maxerr → Forall (λ w, 1 <= w) (weights_of cs maxerr).
Proof.
  intros Hnw Hm. unfold weights_of. rewrite Forall_fmap.
  eapply Forall_impl; [exact Hnw|]. intros svc Hsvc. cbv beta in *.
  apply ceil_div_pos; lia.
Qed.

(** The uniform branch with a draw in range returns the endpoint at the
    draw. *)
Lemma uniform_in_range rnd cs :
  cs_wf cs → 1 <= numservices cs → rand_in_range rnd →
  ∃ (i : nat) svc,
    servicelist cs !! i = Some svc ∧
    Z.of_nat i = randomize rnd 0 (numservices cs) ∧
    uniform rnd cs = Returns (svc, None).
Proof.
  intros Hwf Hn Hrnd. unfold uniform.
  destruct (Hrnd 0 (numservices cs) ltac:(lia)) as [Hu _].
  destruct (getIndexedService_in_range cs _ Hwf Hu) as (svc & Hsvc & ->).
  exists (Z.to_nat (randomize rnd 0 (numservices cs))), svc.
  split; [exact Hsvc|]. split; [lia|reflexivity].
Qed.

(** The weighted branch within the exact range, with a draw in range:
    the search selects a position of the list and the endpoint there is
    returned; the fallback is not reached. *)
Lemma weighted_in_range rnd cs maxerr :
  cs_wf cs → no_wrap cs → 1 <= numservices cs →
  1 <= maxerr → numservices cs * maxerr < 2 ^ 53 → rand_in_range rnd →
  ∃ (i : nat) svc,
    servicelist cs !! i = Some svc ∧
    selects (Fint <$> running 0 (weights_of cs maxerr)) (Z.of_nat i)
      (randomize64 rnd 1 (Zsum (weights_of cs maxerr) + 1)) ∧
    weighted rnd cs maxerr = Returns (svc, None).
Proof.
  intros Hwf Hnw Hn Hm Hr Hrnd.
  destruct (weights_in_range cs maxerr Hwf Hnw ltac:(lia) Hr)
    as (Hpos & Hsum & Hin).
  pose proof (Zsum_ge_length _ (weights_of_pos cs maxerr Hnw Hm)) as Htotal.
  pose proof (length_weights_of cs maxerr) as Hlen.
  pose proof Hwf as Hcount. red in Hcount.
  rewrite Hlen, <- Hcount in Htotal.
  rewrite weighted_finite by (assumption || lia).
  destruct (Hrnd 1 (Zsum (weights_of cs maxerr) + 1) ltac:(lia)) as [_ Hdraw].
  destruct (findCeilIn_search
              (randomize64 rnd 1 (Zsum (weights_of cs maxerr) + 1))
              (Fint <$> running 0 (weights_of cs maxerr))
              (running 0 (weights_of cs maxerr))
              0 (numservices cs - 1) (converts_Fint _ Hin)
              (nondecreasing_reached _ _ (running_nondecreasing _ Hpos)))
    as (res & last & Hres & Hlast & Hfound & _);
    [lia|rewrite length_running; lia|].
  rewrite Hcount, <- Hlen, running_last in Hlast.
  - injection Hlast as <-. destruct (Hfound ltac:(lia)) as (Hrange & _).
    rewrite Hres. simpl.
    destruct (Z.geb_spec res 0); [|lia].
    destruct (getIndexedService_in_range cs res) as (svc & Hsvc & ->);
      [exact Hwf|lia|].
    exists (Z.to_nat res), svc. split; [exact Hsvc|]. split; [|reflexivity].
    unfold selects. rewrite length_fmap, length_running, Hlen, <- Hcount.
    rewrite Hres. f_equal. lia.
  - intros Hnil. rewrite Hnil in Hlen. simpl in Hlen. lia.
Qed.

(** ** Facts about the concrete states *)

Lemma no_wrap_three : no_wrap three.
Proof. apply (bool_decide_unpack _). vm_compute. exact I. Qed.

(** ** Claims about the first attempt, at their failing inputs *)

(** C1, at the failing input: two endpoints, the counter of the first at
    the largest [uint64] value 2^64 - 1, the counter of the second at 1
    (effective error 2, as [math.Pow(2, 1.5)] is 2.82...).  The claim
    gives the first endpoint the weight ceil(2 / 2^64) = 1; in the code
    [errcnt + 1] wraps to 0, the weight is the quotient by zero, the
    total weight is not finite and the bound of the draw is left to the
    conversion of a non-finite [float64] to [int64]. *)
Theorem wrapped_weight_not_finite :
  pow_floor 2 = 2 →
  cs_wf wrapped_busy ∧ 2 <= numservices wrapped_busy ∧
  errcnt_of wrapped_busy "a" = 2 ^ 64 - 1 ∧
  scan_maxerr wrapped_busy = 2 ∧
  ceil_div (scan_maxerr wrapped_busy) (errcnt_of wrapped_busy "a" + 1) = 1 ∧
  compute_weights wrapped_busy (scan_maxerr wrapped_busy)
    = Some [NonFinite; Fint 1] ∧
  ∀ rnd prevservice,
    SelectService rnd wrapped_busy 0 prevservice = (Unspecified, wrapped_busy).
Proof.
  intros Hpow.
  assert (scan_maxerr wrapped_busy = 2) as Hm.
  { unfold scan_maxerr, maxerr_step. simpl.
    change (floor_pow15 (u64 (1 + errcnt_of wrapped_busy "a"))) with 0.
    change (floor_pow15 (u64 (1 + errcnt_of wrapped_busy "b")))
      with (u64 (pow_floor 2)).
    rewrite Hpow. reflexivity. }
  split; [reflexivity|]. split; [simpl; lia|]. split; [reflexivity|].
  split; [exact Hm|]. rewrite Hm.
  split; [reflexivity|]. split; [reflexivity|].
  intros rnd prevservice.
  rewrite SelectService_first by (simpl; lia || reflexivity).
  rewrite Hm. reflexivity.
Qed.

(** C2, at the failing input: the array of the one entry 2^63 and the
    draw 1.  The array is non-decreasing and the draw is at most its
    last entry, so the claim gives the index 0; the code compares the
    draw with [int64(prefixes[0])], and 2^63 is outside the range of
    [int64]: the result of the conversion, and with it the result of the
    search, is left to the implementation. *)
Theorem findCeilIn_entry_beyond_int64 :
  Qnondecreasing [inject_Z (2 ^ 63)] ∧
  (inject_Z 1 <= inject_Z (2 ^ 63))%Q ∧
  ¬ in_int64 (truncate (inject_Z (2 ^ 63))) ∧
  int64_of (Fint (2 ^ 63)) = Unspecified ∧
  findCeilIn 1 [Fint (2 ^ 63)] 0 0 = Unspecified.
Proof.
  split; [|split; [|split; [|split]]].
  - intros i j x y Hij Hx Hy.
    destruct i as [|i], j as [|j]; simpl in *; try discriminate.
    injection Hx as <-. injection Hy as <-. apply Qle_refl.
  - rewrite <- Zle_Qle. lia.
  - rewrite truncate_inject_Z. unfold in_int64. lia.
  - reflexivity.
  - reflexivity.
Qed.

(** C3, at the failing input: two endpoints, the counter of the first at
    the largest [uint64] value 2^64 - 1, the counter of the second at 0.
    [1 + errcnt] wraps to 0, the effective error of the first endpoint
    is 0, the largest one is 1, and the first attempt takes the uniform
    branch (it returns the endpoint at the uniform draw, here position
    1) although an endpoint has recorded failures. *)
Theorem maxerr_one_with_failures :
  servicelist wrapped_idle ≠ [] ∧
  errcnt_of wrapped_idle "a" = 2 ^ 64 - 1 ∧
  effective wrapped_idle "a" = 0 ∧
  scan_maxerr wrapped_idle = 1 ∧
  ¬ Forall (λ svc, errcnt_of wrapped_idle svc = 0) (servicelist wrapped_idle) ∧
  SelectService (const_rand 1 1) wrapped_idle 0 ""
    = (Returns ("b"%string, None), wrapped_idle).
Proof.
  split; [discriminate|]. split; [reflexivity|]. split; [reflexivity|].
  split; [reflexivity|]. split; [|reflexivity].
  intros Hall. apply Forall_cons in Hall as [Ha _]. vm_compute in Ha.
  discriminate.
Qed.

(** ** Claims about the retry path *)

(** C4: a retry (attempt index above 0) returns the endpoint at position
    (previousPosition + 1) mod count, where previousPosition is the
    position of the previous endpoint in the endpoint sequence (the last
    one, should the identifier occur more than once); for the three
    endpoints s0, s1, s2 and any counters, s0 is followed by s1, s1 by
    s2 and s2 by s0. *)
Theorem retry_deterministic_cyclic :
  (∀ rnd cs retryindex prevservice (p : nat),
     cs_wf cs → 0 < retryindex →
     servicelist cs !! p = Some prevservice →
     (∀ q, (p < q)%nat → servicelist cs !! q ≠ Some prevservice) →
     ∃ svc,
       servicelist cs !! Z.to_nat ((Z.of_nat p + 1) mod numservices cs)
         = Some svc ∧
       SelectService rnd cs retryindex prevservice = (Returns (svc, None), cs)) ∧
  (∀ rnd errors mutex,
     let cs := mkClusterState ["s0"; "s1"; "s2"]%string 3 errors mutex in
     SelectService rnd cs 1 "s0" = (Returns ("s1"%string, None), cs) ∧
     SelectService rnd cs 1 "s1" = (Returns ("s2"%string, None), cs) ∧
     SelectService rnd cs 1 "s2" = (Returns ("s0"%string, None), cs)).
Proof.
  split.
  - intros rnd cs retryindex prevservice p Hwf Hr Hp Hlast.
    apply retry_next; [assumption|lia|assumption..].
  - intros rnd errors mutex cs. repeat split.
Qed.

(** C5, amended: with more than one endpoint and pairwise distinct
    identifiers, a retry returns an endpoint different from the previous
    one. *)
Theorem retry_never_repeats rnd cs retryindex prevservice :
  cs_wf cs → 1 < numservices cs → NoDup (servicelist cs) → 0 < retryindex →
  ∃ svc,
    SelectService rnd cs retryindex prevservice = (Returns (svc, None), cs) ∧
    svc ≠ prevservice.
Proof.
  intros Hwf Hn Hnd Hr. rewrite SelectService_retry by lia.
  pose proof (scan_prev_range cs prevservice) as Hrange.
  red in Hwf.
  destruct (roundrobin_range (numservices cs) (scan_prev cs prevservice))
    as (Hrr & Hnext & Hwrap); [lia..|].
  destruct (getIndexedService_in_range cs _ Hwf Hrr) as (svc & Hsvc & ->).
  exists svc. split; [reflexivity|]. intros ->.
  unfold scan_prev in *.
  destruct (prev_fold_snd prevservice (servicelist cs))
    as [[_ Hnot]|(Hpos & Hat & _)].
  - apply Hnot. eapply list_elem_of_lookup_2; eauto.
  - pose proof (NoDup_lookup _ _ _ _ Hnd Hsvc Hat) as Heq.
    destruct (decide (snd (foldl (prev_step prevservice) (0, -1)
                (servicelist cs)) + 1 = numservices cs)) as [Hlast|Hmid].
    + rewrite (Hwrap Hlast) in Heq. lia.
    + rewrite Hnext in Heq by lia. lia.
Qed.

(** ** Claims about the degenerate pools, the accessor and the state *)

(** C6: with no endpoint, every call fails with [NoEndpoints] and returns
    the empty identifier. *)
Theorem no_endpoints rnd cs retryindex prevservice :
  numservices cs = 0 →
  SelectService rnd cs retryindex prevservice
    = (Returns (""%string, Some NoEndpoints), cs).
Proof. intros Hn. unfold SelectService. now rewrite Hn. Qed.

(** C7: with one endpoint, every call returns that endpoint (position 0)
    and no error, whatever the attempt index, the previous endpoint and
    the counters. *)
Theorem single_endpoint cs :
  cs_wf cs → numservices cs = 1 →
  ∃ svc, servicelist cs = [svc] ∧
    ∀ rnd retryindex prevservice,
      SelectService rnd cs retryindex prevservice = (Returns (svc, None), cs).
Proof.
  intros Hwf Hn. red in Hwf.
  destruct (servicelist cs) as [|svc [|? ?]] eqn:Hl; simpl in Hwf; try lia.
  exists svc. split; [reflexivity|]. intros rnd retryindex prevservice.
  rewrite SelectService_single by assumption.
  unfold getIndexedService. rewrite Hn, Hl. reflexivity.
Qed.

(** C8: [getIndexedService] fails with [IndexOutOfRange] exactly when the
    index is outside [0, count); inside, it returns the identifier at
    that position and no error. *)
Theorem getIndexedService_bounds cs idx :
  ((∃ svc, getIndexedService cs idx = Returns (svc, Some IndexOutOfRange))
     ↔ ¬ (0 <= idx < numservices cs)) ∧
  (cs_wf cs → 0 <= idx < numservices cs →
     ∃ svc, servicelist cs !! Z.to_nat idx = Some svc ∧
            getIndexedService cs idx = Returns (svc, None)).
Proof.
  split; [split|].
  - intros [svc Hres] Hin. unfold getIndexedService in Hres.
    destruct (Z.ltb_spec idx 0); [lia|].
    destruct (Z.geb_spec idx (numservices cs)); [lia|]. simpl in Hres.
    destruct (index (servicelist cs) idx); discriminate.
  - intros Hout. exists ""%string. now apply getIndexedService_out_of_range.
  - intros Hwf Hin. now apply getIndexedService_in_range.
Qed.

(** C9: a call leaves the cluster state as it found it, whatever it
    returns: the endpoint list, the count, every counter, and the mutex,
    which is released on every path that took it. *)
Theorem SelectService_frame rnd cs retryindex prevservice :
  snd (SelectService rnd cs retryindex prevservice) = cs.
Proof.
  unfold SelectService.
  destruct (numservices cs =? 0); [reflexivity|].
  destruct (numservices cs =? 1); [reflexivity|].
  destruct (retryindex =? 0); [|reflexivity].
  destruct (Lock cs) as [cs1|] eqn:Hlock; [|reflexivity].
  simpl. now apply Unlock_Lock.
Qed.

(** C10: with two or more endpoints, every attempt index other than 0,
    negative ones included, takes the round-robin path: the result is the
    accessor at the round-robin index, for every random oracle and
    without taking the mutex. *)
Theorem nonzero_attempt_is_retry cs retryindex prevservice :
  2 <= numservices cs → retryindex ≠ 0 →
  ∀ rnd,
    SelectService rnd cs retryindex prevservice =
    (getIndexedService cs
       (roundrobin (numservices cs) (scan_prev cs prevservice)), cs).
Proof. intros Hn Hr rnd. now apply SelectService_retry. Qed.

(** * Further properties of the code *)

(** ** findCeilIn on any window and any array *)

Lemma read_values qs i :
  Forall (λ q, in_int64 (truncate q)) qs → 0 <= i < Z.of_nat (length qs) →
  ∃ q, index qs i = Some q ∧ read (Finite <$> qs) i = Returns (truncate q).
Proof.
  intros Hin Hi. destruct (index_in_range qs i Hi) as [q Hq].
  exists q. split; [exact Hq|]. unfold read. rewrite index_fmap, Hq. simpl.
  apply index_Some in Hq as [_ Hq].
  pose proof (Forall_lookup_1 _ _ _ _ Hin Hq) as Hr. cbv beta in Hr.
  now destruct (decide (in_int64 (truncate q))).
Qed.

(** X1: over an array of finite entries whose truncations are within the
    range of [int64], sorted or not, a search in a window inside the
    array returns; the result is -1 or an index of the window whose
    entry, truncated as the code converts it, is at least the draw; it
    is [start] when every truncated entry of the window is at least the
    draw, and -1 when none is. *)
Theorem findCeilIn_window_safe randx (qs : list Q) start end_ :
  Forall (λ q, in_int64 (truncate q)) qs →
  0 <= start <= end_ → end_ < Z.of_nat (length qs) →
  ∃ res, findCeilIn randx (Finite <$> qs) start end_ = Returns res ∧
    (res = -1 ∨
     (start <= res <= end_ ∧
      ∃ q, index qs res = Some q ∧ randx <= truncate q)) ∧
    ((∀ j q, start <= j <= end_ → index qs j = Some q → randx <= truncate q) →
     res = start) ∧
    ((∀ j q, start <= j <= end_ → index qs j = Some q → truncate q < randx) →
     res = -1).
Proof.
  remember (Finite <$> qs) as prefixes eqn:Hps. intros Hin Hse Hlen.
  funelim (findCeilIn randx prefixes start end_);
    try (pose proof (mid_bounds start end_ ltac:(lia)) as Hmid);
    match goal with
    | Hread : read (Finite <$> qs) ?i = _ |- _ =>
        destruct (read_values qs i Hin ltac:(lia)) as (q & Hq & Hrq);
        rewrite Hrq in Hread; try discriminate; injection Hread as <-
    end.
  - assert (start = end_) as -> by lia.
    exists (if randx <=? truncate q then end_ else -1). split; [reflexivity|].
    destruct (Z.leb_spec randx (truncate q)); split.
    + right. split; [lia|]. eauto.
    + split; [reflexivity|]. intros Hall.
      pose proof (Hall end_ q ltac:(lia) Hq). lia.
    + now left.
    + split; [|reflexivity]. intros Hall.
      pose proof (Hall end_ q ltac:(lia) Hq). lia.
  - destruct (H qs eq_refl Hin ltac:(lia) Hlen)
      as (res & Hres & Hsafe & Hall & Hnone).
    exists res. split; [exact Hres|]. split; [|split].
    + destruct Hsafe as [->|(Hrange & Hat)]; [now left|right].
      split; [lia|exact Hat].
    + intros Hge.
      pose proof (Hge (start + Z.shiftr (end_ - start) 1) q ltac:(lia) Hq). lia.
    + intros Hlt. apply Hnone. intros j x Hj. apply Hlt. lia.
  - destruct (H qs eq_refl Hin ltac:(lia) ltac:(lia))
      as (res & Hres & Hsafe & Hall & Hnone).
    exists res. split; [exact Hres|]. split; [|split].
    + destruct Hsafe as [->|(Hrange & Hat)]; [now left|right].
      split; [lia|exact Hat].
    + intros Hge. apply Hall. intros j x Hj. apply Hge. lia.
    + intros Hlt.
      pose proof (Hlt (start + Z.shiftr (end_ - start) 1) q ltac:(lia) Hq). lia.
Qed.

(** A draw from 1 on is at most the truncation of a rational exactly
    when it is at most the rational. *)
Lemma truncate_reaches r q :
  1 <= r → (r <= truncate q ↔ (inject_Z r <= q)%Q).
Proof.
  intros Hr. unfold Qle, truncate. simpl. rewrite Z.mul_1_r.
  destruct q as [n d]. simpl. pose proof (Pos2Z.is_pos d) as Hd.
  destruct (Z_le_gt_dec 0 n) as [Hn|Hn].
  - rewrite Z.quot_div_nonneg by lia. split.
    + intros Hle. pose proof (Z.mul_div_le n (Z.pos d) Hd). nia.
    + intros Hle. apply Z.div_le_lower_bound; lia.
  - replace n with (- - n) at 1 by lia. rewrite Z.quot_opp_l by lia.
    pose proof (Z.quot_pos (- n) (Z.pos d) ltac:(lia) Hd).
    split; intros Hle; [lia|nia].
Qed.

Lemma converts_values qs :
  Forall (λ q, in_int64 (truncate q)) qs →
  converts (Finite <$> qs) (truncate <$> qs).
Proof.
  induction 1 as [|q qs Hq _ IH]; [constructor|].
  constructor; [|exact IH]. simpl.
  now destruct (decide (in_int64 (truncate q))).
Qed.

Lemma values_reached randx qs :
  1 <= randx → Qnondecreasing qs → reached_for_good randx (truncate <$> qs).
Proof.
  intros Hr Hmono i j x y Hij Hx Hy Hrx.
  rewrite list_lookup_fmap in Hx, Hy.
  destruct (qs !! i) as [p|] eqn:Hp; [|discriminate].
  destruct (qs !! j) as [q|] eqn:Hq; [|discriminate].
  simpl in *. injection Hx as <-. injection Hy as <-.
  apply truncate_reaches; [exact Hr|].
  apply truncate_reaches in Hrx; [|exact Hr].
  eapply Qle_trans; [exact Hrx|]. now apply (Hmono i j).
Qed.

(** X2: over a non-decreasing array of finite entries whose truncations
    are within the range of [int64], and for a draw from 1 on, a search
    in a window inside the array returns the smallest index of the
    window whose entry is at least the draw, and -1 exactly when the
    last entry of the window is below the draw. *)
Theorem findCeilIn_window_smallest randx (qs : list Q) start end_ :
  1 <= randx → Qnondecreasing qs →
  Forall (λ q, in_int64 (truncate q)) qs →
  0 <= start <= end_ → end_ < Z.of_nat (length qs) →
  ∃ res last,
    findCeilIn randx (Finite <$> qs) start end_ = Returns res ∧
    index qs end_ = Some last ∧
    ((inject_Z randx <= last)%Q →
       start <= res <= end_ ∧
       (∃ x, index qs res = Some x ∧ (inject_Z randx <= x)%Q) ∧
       ∀ j x, start <= j < res → index qs j = Some x →
              (x < inject_Z randx)%Q) ∧
    (res = -1 ↔ (last < inject_Z randx)%Q).
Proof.
  intros Hr Hmono Hin Hse Hlen.
  destruct (findCeilIn_search randx (Finite <$> qs) (truncate <$> qs)
              start end_ (converts_values qs Hin) (values_reached randx qs Hr Hmono)
              Hse)
    as (res & t & Hres & Ht & Hfound & Hout);
    [now rewrite length_fmap|].
  rewrite index_fmap in Ht.
  destruct (index qs end_) as [last|] eqn:Hlast; [|discriminate].
  simpl in Ht. injection Ht as <-.
  exists res, last. split; [exact Hres|]. split; [reflexivity|].
  assert ((inject_Z randx <= last)%Q →
          start <= res <= end_ ∧
          (∃ x, index qs res = Some x ∧ (inject_Z randx <= x)%Q) ∧
          ∀ j x, start <= j < res → index qs j = Some x →
                 (x < inject_Z randx)%Q) as Hle.
  { intros Hl. apply truncate_reaches in Hl; [|exact Hr].
    destruct (Hfound Hl) as (Hrange & (t & Ht & Hrt) & Hbelow).
    split; [exact Hrange|]. split.
    - rewrite index_fmap in Ht.
      destruct (index qs res) as [x|]; [|discriminate].
      simpl in Ht. injection Ht as <-. exists x. split; [reflexivity|].
      now apply truncate_reaches.
    - intros j x Hj Hx. apply Qnot_le_lt. intros Hc.
      apply truncate_reaches in Hc; [|exact Hr].
      pose proof (Hbelow j (truncate x) Hj) as Hb.
      rewrite index_fmap, Hx in Hb. specialize (Hb eq_refl). lia. }
  split; [exact Hle|]. split.
  - intros Hminus. apply Qnot_le_lt. intros Hc.
    destruct (Hle Hc) as (Hrange & _). lia.
  - intros Hlt. apply Hout.
    destruct (Z_lt_le_dec (truncate last) randx) as [Hl|Hl]; [exact Hl|].
    apply truncate_reaches in Hl; [|exact Hr].
    exfalso. now apply (Qlt_not_le _ _ Hlt).
Qed.

(** X3: on the empty array the search panics, whatever the draw and the
    window: its first read is out of range. *)
Theorem findCeilIn_empty_panics randx start end_ :
  findCeilIn randx [] start end_ = Panics.
Proof.
  funelim (findCeilIn randx [] start end_); try reflexivity;
    match goal with
    | H : read [] _ = _ |- _ =>
        unfold read, index in H; destruct (_ <? 0) in H; discriminate
    end.
Qed.

(** ** The accessor on any state *)

(** X4: [getIndexedService] reads the slice under the guard of the
    recorded count, so it is free of panics for every index exactly when
    the count does not exceed the length of the endpoint list. *)
Theorem getIndexedService_panic_free cs :
  (∀ idx, getIndexedService cs idx ≠ Panics)
  ↔ numservices cs <= Z.of_nat (length (servicelist cs)).
Proof.
  split.
  - intros Hfree.
    destruct (Z_le_gt_dec (numservices cs) (Z.of_nat (length (servicelist cs))))
      as [Hle|Hgt]; [exact Hle|exfalso].
    apply (Hfree (Z.of_nat (length (servicelist cs)))).
    unfold getIndexedService.
    destruct (Z.ltb_spec (Z.of_nat (length (servicelist cs))) 0); [lia|].
    destruct (Z.geb_spec (Z.of_nat (length (servicelist cs))) (numservices cs));
      [lia|]. simpl.
    rewrite index_of_nat, lookup_ge_None_2 by lia. reflexivity.
  - intros Hle idx. unfold getIndexedService.
    destruct (Z.ltb_spec idx 0); [discriminate|].
    destruct (Z.geb_spec idx (numservices cs)); [discriminate|]. simpl.
    destruct (index_in_range (servicelist cs) idx) as [svc ->]; [lia|].
    discriminate.
Qed.

(** ** The scans *)

(** X5: the scan for the previous endpoint leaves -1 exactly when the
    identifier does not occur in the endpoint list; when it occurs, the
    scan leaves its last position. *)
Theorem scan_prev_last_position cs prevservice :
  (scan_prev cs prevservice = -1 ↔ prevservice ∉ servicelist cs) ∧
  (prevservice ∈ servicelist cs →
   0 <= scan_prev cs prevservice < Z.of_nat (length (servicelist cs)) ∧
   servicelist cs !! Z.to_nat (scan_prev cs prevservice) = Some prevservice ∧
   ∀ q, (Z.to_nat (scan_prev cs prevservice) < q)%nat →
        servicelist cs !! q ≠ Some prevservice).
Proof.
  unfold scan_prev.
  destruct (prev_fold_snd prevservice (servicelist cs))
    as [[Hm Hnot]|(Hr & Hat & Hlast)]; cbv zeta in *.
  - split; [tauto|]. intros Hin. contradiction.
  - assert (prevservice ∈ servicelist cs) as Hin
      by (eapply list_elem_of_lookup_2; eauto).
    split; [split; [lia|tauto]|]. intros _. auto.
Qed.

(** X6: the scan for the largest effective error computes the maximum:
    it is 0 on the empty list, it bounds the effective error of every
    endpoint, and on a non-empty list some endpoint attains it. *)
Theorem scan_maxerr_is_max cs :
  (servicelist cs = [] → scan_maxerr cs = 0) ∧
  (∀ svc, svc ∈ servicelist cs → effective cs svc <= scan_maxerr cs) ∧
  (servicelist cs ≠ [] →
   ∃ svc, svc ∈ servicelist cs ∧ scan_maxerr cs = effective cs svc).
Proof.
  unfold scan_maxerr.
  destruct (maxerr_fold_spec cs (servicelist cs) 0) as (Hge & Hall & Hwit).
  cbv zeta in *. split; [|split].
  - intros ->. reflexivity.
  - exact Hall.
  - intros Hne. destruct Hwit as [H0|Hwit]; [|exact Hwit].
    destruct (servicelist cs) as [|svc l] eqn:Hl; [done|].
    assert (svc ∈ svc :: l) as Hin by (apply elem_of_cons; now left).
    exists svc. split; [exact Hin|].
    specialize (Hall svc Hin).
    pose proof (effective_nonneg cs svc). lia.
Qed.
(** ** The loop of the running sums *)

Lemma length_frunning_from p ws : length (frunning_from p ws) = length ws.
Proof. revert p. induction ws; intros; simpl; auto. Qed.

Lemma length_frunning ws : length (frunning ws) = length ws.
Proof. destruct ws; simpl; [reflexivity|]. now rewrite length_frunning_from. Qed.

Lemma frunning_from_step ws : ∀ p (i : nat) w q,
  ws !! S i = Some w → frunning_from p ws !! i = Some q →
  frunning_from p ws !! S i = Some (fadd w q).
Proof.
  induction ws as [|w0 rest IH]; intros p i w q Hw Hq; [discriminate|].
  simpl in *. destruct i as [|i]; simpl in *.
  - injection Hq as <-. destruct rest as [|w1 rest]; [discriminate|].
    simpl in *. now injection Hw as ->.
  - now apply IH.
Qed.

Lemma frunning_step ws (i : nat) w q :
  ws !! S i = Some w → frunning ws !! i = Some q →
  frunning ws !! S i = Some (fadd w q).
Proof.
  destruct ws as [|w0 rest]; [discriminate|]. simpl. intros Hw Hq.
  destruct i as [|i]; simpl in *.
  - injection Hq as <-. destruct rest as [|w1 rest]; [discriminate|].
    simpl in *. now injection Hw as ->.
  - now apply frunning_from_step.
Qed.

Lemma frunning_head ws : frunning ws !! 0%nat = ws !! 0%nat.
Proof. now destruct ws. Qed.

Lemma fill_prefixes_frunning ws : ∀ (todo i : nat) (prefixes : list float64),
  (i + todo = length ws)%nat → length prefixes = length ws →
  take i prefixes = take i (frunning ws) →
  fill_prefixes ws todo (Z.of_nat i) prefixes = Some (frunning ws).
Proof.
  induction todo as [|todo IH]; intros i prefixes Hi Hlen Hinv; simpl.
  - rewrite !take_ge in Hinv by (rewrite ?length_frunning; lia). now subst.
  - destruct (lookup_lt_is_Some_2 ws i) as [w Hw]; [lia|].
    destruct (lookup_lt_is_Some_2 prefixes i) as [old Hold]; [lia|].
    rewrite !index_of_nat, Hw, Hold. simpl. rewrite Nat2Z.id.
    replace (Z.of_nat i + 1) with (Z.of_nat (S i)) by lia.
    assert (∀ v, frunning ws !! i = Some v →
              fill_prefixes ws todo (Z.of_nat (S i)) (<[i := v]> prefixes)
              = Some (frunning ws)) as Hnext.
    { intros v Hv. apply IH; [lia|now rewrite length_insert|].
      rewrite (take_S_r _ _ v) by (apply list_lookup_insert_eq; lia).
      rewrite take_insert_ge by lia.
      now rewrite (take_S_r _ _ _ Hv), Hinv. }
    destruct (Z.eqb_spec (Z.of_nat i) 0) as [H0|H0].
    + apply Hnext. assert (i = 0)%nat as -> by lia.
      now rewrite frunning_head.
    + replace (Z.of_nat i - 1) with (Z.of_nat (i - 1)) by lia.
      rewrite index_of_nat.
      destruct (lookup_lt_is_Some_2 (frunning ws) (i - 1)) as [q Hq];
        [rewrite length_frunning; lia|].
      assert (prefixes !! (i - 1)%nat = Some q) as ->.
      { rewrite <- (lookup_take_lt prefixes i) by lia. rewrite Hinv.
        now rewrite lookup_take_lt by lia. }
      simpl. apply Hnext.
      replace i with (S (i - 1)) at 1 by lia.
      apply frunning_step; [|exact Hq].
      now replace (S (i - 1)) with i by lia.
Qed.

(** X7: over weights of the recorded count, the loop of the running sums
    does not panic and leaves, at position 0, the first weight and, at
    every later position, the weight there plus the entry before. *)
Theorem compute_prefixes_running cs (weights : list float64) :
  Z.of_nat (length weights) = numservices cs →
  ∃ prefixes,
    compute_prefixes cs weights = Some prefixes ∧
    length prefixes = length weights ∧
    prefixes !! 0%nat = weights !! 0%nat ∧
    ∀ (i : nat) w p, weights !! S i = Some w → prefixes !! i = Some p →
      prefixes !! S i = Some (fadd w p).
Proof.
  intros Hlen. exists (frunning weights).
  split; [|split; [apply length_frunning|split; [apply frunning_head|]]].
  - unfold compute_prefixes, make_floats.
    destruct (Z.ltb_spec (numservices cs) 0); [lia|]. simpl.
    apply (fill_prefixes_frunning weights (length weights) 0);
      [lia| |reflexivity].
    rewrite length_replicate. lia.
  - intros i w p. apply frunning_step.
Qed.

(** ** The bias of the weighted draw *)

(** The draws that select a position, within the exact range. *)
Lemma draws_of_position cs maxerr (k : nat) s :
  cs_wf cs → no_wrap cs → 0 <= maxerr → numservices cs * maxerr < 2 ^ 53 →
  servicelist cs !! k = Some s →
  draws_selecting (Fint <$> running 0 (weights_of cs maxerr))
    (Zsum (weights_of cs maxerr)) (Z.of_nat k)
  = ceil_div maxerr (errcnt_of cs s + 1).
Proof.
  intros Hwf Hnw Hm Hr Hs.
  destruct (weights_in_range cs maxerr Hwf Hnw Hm Hr) as (Hpos & Hsum & _).
  apply draws_selecting_weight; [exact Hpos|exact Hsum|].
  unfold weights_of. now rewrite list_lookup_fmap, Hs.
Qed.

(** The arrays of the weighted branch, within the exact range. *)
Lemma weighted_arrays cs maxerr :
  cs_wf cs → no_wrap cs → 1 <= numservices cs →
  0 <= maxerr → numservices cs * maxerr < 2 ^ 53 →
  compute_weights cs maxerr = Some (Fint <$> weights_of cs maxerr) ∧
  compute_prefixes cs (Fint <$> weights_of cs maxerr)
    = Some (Fint <$> running 0 (weights_of cs maxerr)) ∧
  read (Fint <$> running 0 (weights_of cs maxerr)) (numservices cs - 1)
    = Returns (Zsum (weights_of cs maxerr)).
Proof.
  intros Hwf Hnw Hn Hm Hr.
  destruct (weights_in_range cs maxerr Hwf Hnw Hm Hr) as (Hpos & Hsum & Hin).
  split; [apply compute_weights_finite; [assumption..|nia]|].
  split; [now apply compute_prefixes_finite; [|apply length_weights_of|..]|].
  apply (read_converts _ (running 0 (weights_of cs maxerr)));
    [now apply converts_Fint|].
  red in Hwf. rewrite Hwf, <- (length_weights_of cs maxerr).
  apply running_last. intros Hnil.
  pose proof (length_weights_of cs maxerr) as Hl.
  rewrite Hnil in Hl. simpl in Hl. lia.
Qed.

(** X8: in the arrays that the weighted branch computes, for two or more
    endpoints, no counter at 2^64 - 1, a largest effective error of at
    least 2 and count times the largest effective error below 2^53:
    every position is selected by at least one draw and by at most
    maxEffectiveError draws; an endpoint without failures is selected by
    exactly maxEffectiveError draws, an endpoint with failures by
    strictly fewer, and an endpoint with at least as many failures as
    another by at most as many draws. *)
Theorem weighted_bias cs :
  cs_wf cs → no_wrap cs → 2 <= numservices cs →
  2 <= scan_maxerr cs → exact_range cs →
  let maxerr := scan_maxerr cs in
  ∃ weights prefixes total,
    compute_weights cs maxerr = Some weights ∧
    compute_prefixes cs weights = Some prefixes ∧
    read prefixes (numservices cs - 1) = Returns total ∧
    ∀ (i : nat) svc, servicelist cs !! i = Some svc →
      1 <= draws_selecting prefixes total (Z.of_nat i) <= maxerr ∧
      (errcnt_of cs svc = 0 →
       draws_selecting prefixes total (Z.of_nat i) = maxerr) ∧
      (errcnt_of cs svc ≠ 0 →
       draws_selecting prefixes total (Z.of_nat i) < maxerr) ∧
      ∀ (j : nat) svc', servicelist cs !! j = Some svc' →
        errcnt_of cs svc <= errcnt_of cs svc' →
        draws_selecting prefixes total (Z.of_nat j)
          <= draws_selecting prefixes total (Z.of_nat i).
Proof.
  intros Hwf Hnw Hn Hm Hr maxerr. red in Hr. fold maxerr in Hm, Hr.
  destruct (weighted_arrays cs maxerr Hwf Hnw ltac:(lia) ltac:(lia) Hr)
    as (Hws & Hps & Htotal).
  exists (Fint <$> weights_of cs maxerr),
         (Fint <$> running 0 (weights_of cs maxerr)),
         (Zsum (weights_of cs maxerr)).
  split; [exact Hws|]. split; [exact Hps|]. split; [exact Htotal|].
  intros i svc Hsvc.
  rewrite (draws_of_position cs maxerr i svc Hwf Hnw ltac:(lia) Hr Hsvc).
  pose proof (no_wrap_elem cs svc Hnw (list_elem_of_lookup_2 _ _ _ Hsvc)) as He.
  split; [|split; [|split]].
  - split; [apply ceil_div_pos; lia|apply ceil_div_le; lia].
  - intros ->. apply ceil_div_one.
  - intros Hnz. apply ceil_div_lt; lia.
  - intros j svc' Hsvc' Hle.
    rewrite (draws_of_position cs maxerr j svc' Hwf Hnw ltac:(lia) Hr Hsvc').
    apply ceil_div_antitone; lia.
Qed.

(** ** A counter at the largest value *)

Lemma compute_prefixes_frunning cs weights :
  Z.of_nat (length weights) = numservices cs →
  compute_prefixes cs weights = Some (frunning weights).
Proof.
  intros Hlen. unfold compute_prefixes, make_floats.
  destruct (Z.ltb_spec (numservices cs) 0); [lia|]. simpl.
  apply (fill_prefixes_frunning weights (length weights) 0);
    [lia| |reflexivity].
  rewrite length_replicate. lia.
Qed.

Lemma fadd_NonFinite_r w : fadd w NonFinite = NonFinite.
Proof. now destruct w. Qed.

(** A weight that is not finite makes every later running sum not
    finite. *)
Lemma frunning_poisoned ws (i : nat) :
  ws !! i = Some NonFinite →
  ∀ (j : nat), (i <= j < length ws)%nat → frunning ws !! j = Some NonFinite.
Proof.
  intros Hi j [Hij Hj]. induction j as [|j IH].
  - assert (i = 0)%nat as -> by lia. now rewrite frunning_head.
  - destruct (lookup_lt_is_Some_2 ws (S j)) as [w Hw]; [lia|].
    destruct (lookup_lt_is_Some_2 (frunning ws) j) as [q Hq];
      [rewrite length_frunning; lia|].
    rewrite (frunning_step ws j w q Hw Hq).
    destruct (decide (i = S j)) as [->|Hne].
    + rewrite Hi in Hw. injection Hw as <-. reflexivity.
    + rewrite IH in Hq by lia. injection Hq as <-.
      now rewrite fadd_NonFinite_r.
Qed.

(** X9: when the counter of a listed endpoint is 2^64 - 1 and the largest
    effective error is not 1, the first attempt over two or more
    endpoints divides by the wrapped [errcnt + 1 = 0]; the total weight
    is not finite and the result is left to its conversion to [int64]. *)
Theorem wrapped_counter_unspecified rnd cs prevservice :
  cs_wf cs → 2 <= numservices cs → remutex cs = false →
  Exists (λ svc, errcnt_of cs svc = 2 ^ 64 - 1) (servicelist cs) →
  scan_maxerr cs ≠ 1 →
  SelectService rnd cs 0 prevservice = (Unspecified, cs).
Proof.
  intros Hwf Hn Hfree Hex H1.
  rewrite SelectService_first by assumption.
  destruct (Z.eqb_spec (scan_maxerr cs) 1); [contradiction|].
  unfold weighted. rewrite (compute_weights_raw cs _ Hwf). simpl.
  rewrite compute_prefixes_frunning by (rewrite length_fmap; now red in Hwf).
  simpl.
  apply Exists_exists in Hex as (svc & Hin & He).
  apply list_elem_of_lookup_1 in Hin as (i & Hi).
  pose proof (lookup_lt_Some _ _ _ Hi) as Hlt. red in Hwf.
  replace (numservices cs - 1)
    with (Z.of_nat (length (servicelist cs) - 1)) by lia.
  unfold read. rewrite index_of_nat.
  rewrite (frunning_poisoned _ i); [reflexivity| |rewrite length_fmap; lia].
  rewrite list_lookup_fmap, Hi. simpl. rewrite He.
  unfold ceil_quot, u64. now replace (2 ^ 64 - 1 + 1) with (2 ^ 64) by lia.
Qed.

(** ** What a call returns and what it reads *)

Lemma low_rand_in_range : rand_in_range low_rand.
Proof. intros lo hi Hlt. simpl. lia. Qed.

(** X10: a first attempt over a non-empty well-formed pool, with the
    mutex free, no counter at 2^64 - 1, a largest effective error of at
    least 1, count times the largest effective error below 2^53 and
    draws in their ranges, returns an endpoint of the list and no error.
    The endpoint is the only one of a pool of one; in the uniform branch
    it is the one at the draw; in the weighted branch it is the one at
    the position that the search selects for the draw: the search does
    not fail and the fallback is not taken. *)
Theorem first_attempt_in_pool rnd cs prevservice :
  cs_wf cs → no_wrap cs → 1 <= numservices cs → remutex cs = false →
  1 <= scan_maxerr cs → exact_range cs → rand_in_range rnd →
  ∃ (i : nat) svc,
    servicelist cs !! i = Some svc ∧ (Z.of_nat i < numservices cs) ∧
    SelectService rnd cs 0 prevservice = (Returns (svc, None), cs) ∧
    (numservices cs = 1 → i = 0%nat) ∧
    (2 <= numservices cs → scan_maxerr cs = 1 →
     Z.of_nat i = randomize rnd 0 (numservices cs)) ∧
    (2 <= numservices cs → scan_maxerr cs ≠ 1 →
     ∃ weights prefixes total,
       compute_weights cs (scan_maxerr cs) = Some weights ∧
       compute_prefixes cs weights = Some prefixes ∧
       read prefixes (numservices cs - 1) = Returns total ∧
       selects prefixes (Z.of_nat i) (randomize64 rnd 1 (total + 1))).
Proof.
  intros Hwf Hnw Hn Hfree Hm Hr Hrnd. red in Hr.
  destruct (decide (numservices cs = 1)) as [H1|H1].
  - rewrite SelectService_single by assumption.
    destruct (getIndexedService_in_range cs 0 Hwf ltac:(lia))
      as (svc & Hsvc & ->).
    exists 0%nat, svc. split; [exact Hsvc|]. split; [lia|].
    split; [reflexivity|]. split; [reflexivity|]. split; intros; lia.
  - rewrite SelectService_first by (assumption || lia).
    destruct (Z.eqb_spec (scan_maxerr cs) 1) as [Hone|Hone].
    + destruct (uniform_in_range rnd cs Hwf Hn Hrnd)
        as (i & svc & Hsvc & Hi & ->).
      exists i, svc. split; [exact Hsvc|].
      split; [apply lookup_lt_Some in Hsvc; red in Hwf; lia|].
      split; [reflexivity|]. split; [intros; lia|].
      split; [intros _ _; exact Hi|]. intros _ Hne. contradiction.
    + destruct (weighted_in_range rnd cs (scan_maxerr cs) Hwf Hnw Hn Hm Hr Hrnd)
        as (i & svc & Hsvc & Hsel & ->).
      destruct (weighted_arrays cs (scan_maxerr cs) Hwf Hnw Hn ltac:(lia) Hr)
        as (Hws & Hps & Htotal).
      exists i, svc. split; [exact Hsvc|].
      split; [apply lookup_lt_Some in Hsvc; red in Hwf; lia|].
      split; [reflexivity|]. split; [intros; lia|].
      split; [intros _ Heq; contradiction|]. intros _ _.
      exists (Fint <$> weights_of cs (scan_maxerr cs)),
             (Fint <$> running 0 (weights_of cs (scan_maxerr cs))),
             (Zsum (weights_of cs (scan_maxerr cs))).
      split; [exact Hws|]. split; [exact Hps|]. split; [exact Htotal|].
      exact Hsel.
Qed.

(** X11: a retry over a non-empty well-formed pool returns an endpoint of
    the list and no error, whatever the previous endpoint is; when the
    previous endpoint is not in the list it returns the first endpoint. *)
Theorem retry_in_pool rnd cs retryindex prevservice :
  cs_wf cs → 1 <= numservices cs → retryindex ≠ 0 →
  ∃ (i : nat) svc,
    servicelist cs !! i = Some svc ∧
    SelectService rnd cs retryindex prevservice = (Returns (svc, None), cs) ∧
    (prevservice ∉ servicelist cs → i = 0%nat).
Proof.
  intros Hwf Hn Hr.
  destruct (decide (numservices cs = 1)) as [H1|H1].
  - rewrite SelectService_single by assumption.
    destruct (getIndexedService_in_range cs 0 Hwf ltac:(lia))
      as (svc & Hsvc & ->).
    exists 0%nat, svc. auto.
  - rewrite SelectService_retry by lia.
    pose proof (scan_prev_range cs prevservice) as Hrange.
    pose proof Hwf as Hlen. red in Hlen.
    destruct (roundrobin_range (numservices cs) (scan_prev cs prevservice))
      as (Hrr & Hnext & _); [lia..|].
    destruct (getIndexedService_in_range cs _ Hwf Hrr) as (svc & Hsvc & ->).
    eexists _, svc. split; [exact Hsvc|]. split; [reflexivity|].
    intros Hnot. unfold scan_prev in *.
    destruct (prev_fold_snd prevservice (servicelist cs))
      as [[Hm _]|(_ & Hat & _)]; cbv zeta in *.
    + rewrite Hm in *. rewrite Hnext by lia. reflexivity.
    + exfalso. apply Hnot. eapply list_elem_of_lookup_2; eauto.
Qed.

(** X12: a call with a nonzero attempt index reads the endpoint list,
    the count and the previous endpoint only: two states with the same
    list and count give the same result, whatever their counters, their
    mutexes, the two nonzero attempt indices and the random oracles. *)
Theorem retry_reads_list_only rnd rnd' cs cs' retryindex retryindex'
    prevservice :
  servicelist cs = servicelist cs' → numservices cs = numservices cs' →
  retryindex ≠ 0 → retryindex' ≠ 0 →
  fst (SelectService rnd cs retryindex prevservice)
  = fst (SelectService rnd' cs' retryindex' prevservice).
Proof.
  intros Hl Hn Hr Hr'. unfold SelectService, getIndexedService, scan_prev.
  rewrite Hl, Hn.
  destruct (numservices cs' =? 0); [reflexivity|].
  destruct (numservices cs' =? 1); [reflexivity|].
  destruct (Z.eqb_spec retryindex 0); [contradiction|].
  destruct (Z.eqb_spec retryindex' 0); [contradiction|]. reflexivity.
Qed.

(** ** A pool without recorded failures *)

(** The first attempt over a pool without recorded failures is the
    uniform draw. *)
Lemma first_attempt_no_failure rnd cs prevservice :
  cs_wf cs → 2 <= numservices cs → remutex cs = false → no_failure cs →
  scan_maxerr cs = 1 ∧
  SelectService rnd cs 0 prevservice = (uniform rnd cs, cs).
Proof.
  intros Hwf Hn Hfree Hzero.
  assert (servicelist cs ≠ []) as Hne.
  { intros Hnil. red in Hwf. rewrite Hnil in Hwf. simpl in Hwf. lia. }
  pose proof (scan_maxerr_no_failure cs Hne Hzero) as H1.
  split; [exact H1|]. rewrite SelectService_first by assumption.
  now rewrite H1.
Qed.

(** ** The retry loop of the sample *)

Lemma retry_loop_round inc res resp rnd cs k lim svc sent :
  retry_loop inc res resp rnd cs k lim svc sent =
  if decide (k <= lim) then
    match SelectService rnd cs k svc with
    | (Returns (svc', _), cs') =>
        if decide (resp k = "SUCCESS"%string)
        then Returns (res cs' svc', sent ++ [svc'])
        else retry_loop inc res resp rnd (inc cs' svc') (k + 1) lim svc'
               (sent ++ [svc'])
    | (Panics, _) => Panics
    | (Blocks, _) => Blocks
    | (Unspecified, _) => Unspecified
    | (Untracked, _) => Untracked
    end
  else Returns (cs, sent).
Proof.
  funelim (retry_loop inc res resp rnd cs k lim svc sent);
    repeat match goal with
           | H : decide _ = _ |- _ => rewrite H; clear H
           | H : SelectService _ _ _ _ = _ |- _ => rewrite H; clear H
           end; reflexivity.
Qed.

Lemma next_position (q n : nat) :
  (0 < n)%nat →
  Z.to_nat ((Z.of_nat (q mod n) + 1) mod Z.of_nat n) = ((q + 1) mod n)%nat.
Proof.
  intros Hn.
  replace (Z.of_nat (q mod n) + 1) with (Z.of_nat (q mod n + 1)) by lia.
  rewrite <- Nat2Z.inj_mod, Nat2Z.id.
  now rewrite Nat.Div0.add_mod_idemp_l.
Qed.

Lemma offset_inj (p i j n : nat) :
  (i < n)%nat → (j < n)%nat →
  ((p + i) mod n = (p + j) mod n)%nat → i = j.
Proof.
  intros Hi Hj Heq.
  pose proof (Nat.div_mod_eq (p + i) n) as H1.
  pose proof (Nat.div_mod_eq (p + j) n) as H2.
  rewrite Heq in H1.
  generalize dependent ((p + i) / n)%nat. generalize dependent ((p + j) / n)%nat.
  generalize dependent ((p + j) mod n)%nat.
  intros r _ q2 H2 q1 H1.
  destruct (Nat.lt_trichotomy q1 q2) as [Hlt|[->|Hgt]]; nia.
Qed.

(** Endpoints read off a duplicate-free list at cyclic offsets are
    pairwise distinct. *)
Lemma cyclic_NoDup (l sent : list string) (p : nat) :
  NoDup l → (length sent <= length l)%nat →
  (∀ i, (i < length sent)%nat →
        sent !! i = l !! ((p + i) mod length l)%nat) →
  NoDup sent.
Proof.
  intros Hnd Hlen Hat. apply NoDup_alt. intros i j x Hi Hj.
  pose proof (lookup_lt_Some _ _ _ Hi) as Hli.
  pose proof (lookup_lt_Some _ _ _ Hj) as Hlj.
  rewrite Hat in Hi, Hj by assumption.
  pose proof (NoDup_lookup _ _ _ _ Hnd Hi Hj) as Heq.
  apply (offset_inj p i j (length l)); [lia|lia|exact Heq].
Qed.

Lemma cyclic_Permutation (l sent : list string) (p : nat) :
  NoDup l → length sent = length l →
  (∀ i, (i < length sent)%nat →
        sent !! i = l !! ((p + i) mod length l)%nat) →
  sent ≡ₚ l.
Proof.
  intros Hnd Hlen Hat.
  apply submseteq_length_Permutation; [|lia].
  apply NoDup_submseteq.
  - apply (cyclic_NoDup l sent p); [assumption|lia|assumption].
  - intros x [i Hi]%list_elem_of_lookup_1.
    pose proof (lookup_lt_Some _ _ _ Hi) as Hli.
    rewrite Hat in Hi by assumption.
    eapply list_elem_of_lookup_2; eauto.
Qed.

Section sample_properties.

Variable inc res : ClusterState → string → ClusterState.
Variable resp : Z → string.
Hypothesis inc_list : ∀ cs svc, servicelist (inc cs svc) = servicelist cs.
Hypothesis inc_count : ∀ cs svc, numservices (inc cs svc) = numservices cs.

(** The rounds after the first: each one goes to the next endpoint. *)
Lemma retry_loop_tail rnd (l : list string) (p : nat) :
  NoDup l →
  ∀ (j k : nat) cs svc sent,
    (k + j = length l)%nat → (1 <= k)%nat →
    servicelist cs = l → numservices cs = Z.of_nat (length l) →
    length sent = k →
    (∀ i, (i < k)%nat → sent !! i = l !! ((p + i) mod length l)%nat) →
    l !! ((p + (k - 1)) mod length l)%nat = Some svc →
    ∃ (m : nat) cs0 svc0 sent',
      (k <= m <= length l)%nat ∧ length sent' = m ∧
      (∀ i, (i < m)%nat → sent' !! i = l !! ((p + i) mod length l)%nat) ∧
      (∀ i : nat, (k <= i)%nat → (i + 1 < m)%nat →
                  resp (Z.of_nat i) ≠ "SUCCESS"%string) ∧
      servicelist cs0 = l ∧ numservices cs0 = Z.of_nat (length l) ∧
      ((k < m)%nat ∧ resp (Z.of_nat (m - 1)) = "SUCCESS"%string ∧
       sent' !! (m - 1)%nat = Some svc0 ∧
       retry_loop inc res resp rnd cs (Z.of_nat k) (Z.of_nat (length l) - 1)
         svc sent = Returns (res cs0 svc0, sent')
       ∨
       m = length l ∧
       (∀ i : nat, (k <= i < m)%nat → resp (Z.of_nat i) ≠ "SUCCESS"%string) ∧
       retry_loop inc res resp rnd cs (Z.of_nat k) (Z.of_nat (length l) - 1)
         svc sent = Returns (cs0, sent')).
Proof.
  intros Hnd j. induction j as [|j IH];
    intros k cs svc sent Hkj Hk Hl Hn Hlen Hat Hsvc;
    rewrite retry_loop_round.
  - destruct (decide (Z.of_nat k <= Z.of_nat (length l) - 1)) as [Hle|_];
      [lia|].
    exists k, cs, svc, sent. split; [lia|]. split; [exact Hlen|].
    split; [exact Hat|]. split; [intros; lia|]. split; [exact Hl|].
    split; [exact Hn|]. right. split; [lia|]. split; [intros; lia|reflexivity].
  - destruct (decide (Z.of_nat k <= Z.of_nat (length l) - 1)) as [_|Hgt];
      [|lia].
    assert (cs_wf cs) as Hwf by (red; now rewrite Hl).
    destruct (retry_next rnd cs (Z.of_nat k) svc
                ((p + (k - 1)) mod length l)%nat Hwf ltac:(lia))
      as (svc' & Hsvc' & Hsel).
    { now rewrite Hl. }
    { intros q Hq Hat'. rewrite Hl in Hat'.
      pose proof (NoDup_lookup _ _ _ _ Hnd Hsvc Hat'). lia. }
    rewrite Hsel. rewrite Hl, Hn, next_position in Hsvc' by lia.
    replace (p + (k - 1) + 1)%nat with (p + k)%nat in Hsvc' by lia.
    assert (length (sent ++ [svc']) = S k) as Hlen'
      by (rewrite length_app; simpl; lia).
    assert (∀ i, (i < S k)%nat →
              (sent ++ [svc']) !! i = l !! ((p + i) mod length l)%nat) as Hat'.
    { intros i Hi. destruct (decide (i < k)%nat) as [Hlt|Hge].
      - rewrite lookup_app_l by lia. now apply Hat.
      - assert (i = k) as -> by lia.
        rewrite lookup_app_r by lia. rewrite Hlen, Nat.sub_diag. simpl.
        now rewrite Hsvc'. }
    destruct (decide (resp (Z.of_nat k) = "SUCCESS"%string)) as [Hok|Hfail].
    + exists (S k), cs, svc', (sent ++ [svc']).
      split; [lia|]. split; [exact Hlen'|]. split; [exact Hat'|].
      split; [intros; lia|]. split; [exact Hl|]. split; [exact Hn|].
      left. replace (S k - 1)%nat with k by lia.
      split; [lia|]. split; [exact Hok|]. split; [|reflexivity].
      rewrite lookup_app_r by lia. now rewrite Hlen, Nat.sub_diag.
    + replace (Z.of_nat k + 1) with (Z.of_nat (S k)) by lia.
      destruct (IH (S k) (inc cs svc') svc' (sent ++ [svc']))
        as (m & cs0 & svc0 & sent' & Hm & Hlm & Hcyc & Hearly & Hl0 & Hn0 & Hend);
        try assumption; try lia.
      { now rewrite inc_list. }
      { now rewrite inc_count. }
      { now replace (S k - 1)%nat with k by lia. }
      exists m, cs0, svc0, sent'. split; [lia|]. split; [exact Hlm|].
      split; [exact Hcyc|]. split.
      { intros i Hi Him. destruct (decide (i = k)) as [->|Hne];
          [exact Hfail|apply Hearly; lia]. }
      split; [exact Hl0|]. split; [exact Hn0|].
      destruct Hend as [(Hkm & Hok & Hlast & Hrun)|(Hmn & Hnone & Hrun)].
      * left. split; [lia|]. split; [exact Hok|]. split; [exact Hlast|exact Hrun].
      * right. split; [exact Hmn|]. split; [|exact Hrun].
        intros i Hi. destruct (decide (i = k)) as [->|Hne];
          [exact Hfail|apply Hnone; lia].
Qed.

(** The whole run: the first attempt picks a position, the retries go
    round from there, and the loop stops at the first success or when
    every endpoint has had its request. *)
Lemma sample_rounds_run rnd cs :
  cs_wf cs → NoDup (servicelist cs) → 1 <= numservices cs →
  no_failure cs → remutex cs = false → rand_in_range rnd →
  ∃ (p m : nat) cs0 svc0 sent,
    (p < length (servicelist cs))%nat ∧
    (2 <= numservices cs → Z.of_nat p = randomize rnd 0 (numservices cs)) ∧
    (1 <= m <= length (servicelist cs))%nat ∧ length sent = m ∧
    (∀ i, (i < m)%nat →
       sent !! i
       = servicelist cs !! ((p + i) mod length (servicelist cs))%nat) ∧
    (∀ i : nat, (i + 1 < m)%nat → resp (Z.of_nat i) ≠ "SUCCESS"%string) ∧
    servicelist cs0 = servicelist cs ∧ numservices cs0 = numservices cs ∧
    (resp (Z.of_nat (m - 1)) = "SUCCESS"%string ∧
     sent !! (m - 1)%nat = Some svc0 ∧
     sample_rounds inc res resp rnd cs = Returns (res cs0 svc0, sent)
     ∨
     m = length (servicelist cs) ∧
     (∀ i : nat, (i < m)%nat → resp (Z.of_nat i) ≠ "SUCCESS"%string) ∧
     sample_rounds inc res resp rnd cs = Returns (cs0, sent)).
Proof.
  intros Hwf Hnd Hn Hzero Hfree Hrnd. unfold sample_rounds.
  pose proof Hwf as Hlen. red in Hlen.
  assert (∃ (p : nat) svc,
            servicelist cs !! p = Some svc ∧
            (2 <= numservices cs →
             Z.of_nat p = randomize rnd 0 (numservices cs)) ∧
            SelectService rnd cs 0 "" = (Returns (svc, None), cs))
    as (p & svc & Hp & Hdraw & Hsel).
  { destruct (decide (numservices cs = 1)) as [H1|H1].
    - rewrite SelectService_single by assumption.
      destruct (getIndexedService_in_range cs 0 Hwf ltac:(lia))
        as (svc & Hsvc & ->). exists 0%nat, svc.
      split; [exact Hsvc|]. split; [intros; lia|reflexivity].
    - destruct (first_attempt_no_failure rnd cs ""%string Hwf ltac:(lia)
                  Hfree Hzero) as (_ & ->).
      destruct (uniform_in_range rnd cs Hwf Hn Hrnd)
        as (p & svc & Hsvc & Hp & ->).
      exists p, svc. split; [exact Hsvc|]. split; [intros _; exact Hp|reflexivity]. }
  pose proof (lookup_lt_Some _ _ _ Hp) as Hplt.
  rewrite retry_loop_round, Hsel.
  destruct (decide (0 <= Z.of_nat (length (servicelist cs)) - 1)) as [_|Hgt];
    [|lia].
  assert (∀ i, (i < 1)%nat →
            ([] ++ [svc]) !! i
            = servicelist cs !! ((p + i) mod length (servicelist cs))%nat)
    as Hat.
  { intros i Hi. assert (i = 0)%nat as -> by lia. simpl.
    now rewrite Nat.add_0_r, Nat.mod_small. }
  destruct (decide (resp 0 = "SUCCESS"%string)) as [Hok|Hfail].
  - exists p, 1%nat, cs, svc, ([] ++ [svc]).
    split; [exact Hplt|]. split; [exact Hdraw|].
    split; [lia|]. split; [reflexivity|].
    split; [exact Hat|]. split; [intros; lia|]. split; [reflexivity|].
    split; [reflexivity|]. left. split; [exact Hok|]. split; reflexivity.
  - destruct (retry_loop_tail rnd (servicelist cs) p Hnd
                (length (servicelist cs) - 1) 1 (inc cs svc) svc ([] ++ [svc]))
      as (m & cs0 & svc0 & sent & Hm & Hlm & Hcyc & Hearly & Hl0 & Hn0 & Hend);
      try lia.
    { apply inc_list. }
    { rewrite inc_count. exact Hlen. }
    { reflexivity. }
    { exact Hat. }
    { simpl. now rewrite Nat.add_0_r, Nat.mod_small. }
    exists p, m, cs0, svc0, sent.
    split; [exact Hplt|]. split; [exact Hdraw|].
    split; [lia|]. split; [exact Hlm|].
    split; [exact Hcyc|]. split.
    { intros i Hi. destruct (decide (i = 0)%nat) as [->|Hne];
        [exact Hfail|apply Hearly; lia]. }
    split; [exact Hl0|]. split; [lia|].
    destruct Hend as [(Hkm & Hok & Hlast & Hrun)|(Hmn & Hnone & Hrun)].
    + left. split; [exact Hok|]. split; [exact Hlast|exact Hrun].
    + right. split; [exact Hmn|]. split; [|exact Hrun].
      intros i Hi. destruct (decide (i = 0)%nat) as [->|Hne];
        [exact Hfail|apply Hnone; lia].
Qed.

End sample_properties.

Lemma fresh_three_facts :
  cs_wf fresh_three ∧ NoDup (servicelist fresh_three) ∧
  1 <= numservices fresh_three ∧ no_failure fresh_three ∧
  remutex fresh_three = false.
Proof.
  split; [reflexivity|]. split; [apply (bool_decide_unpack _); vm_compute; exact I|].
  split; [vm_compute; discriminate|].
  split; [apply (bool_decide_unpack _); vm_compute; exact I|reflexivity].
Qed.

(** X13: the retry loop of the sample, begun as the sample begins it,
    over a well-formed pool of pairwise distinct endpoints without
    recorded failures, with the mutex free, a uniform draw in its range
    and ledger updates that keep the list and the count: it returns
    after at least one and at most count requests; the requests go to
    pairwise distinct endpoints, in the cyclic order of the list from
    the endpoint of the first attempt (the one at the uniform draw, for
    two or more endpoints); no response before the last is a success,
    the loop stops short of count requests only on a success, and on a
    success the reset is applied to the endpoint of the last request. *)
Theorem sample_stops_at_first_success inc res resp rnd cs :
  (∀ c s, servicelist (inc c s) = servicelist c) →
  (∀ c s, numservices (inc c s) = numservices c) →
  cs_wf cs → NoDup (servicelist cs) → 1 <= numservices cs →
  no_failure cs → remutex cs = false → rand_in_range rnd →
  ∃ (p m : nat) final sent,
    sample_rounds inc res resp rnd cs = Returns (final, sent) ∧
    (p < length (servicelist cs))%nat ∧
    (2 <= numservices cs → Z.of_nat p = randomize rnd 0 (numservices cs)) ∧
    (1 <= m <= length (servicelist cs))%nat ∧ length sent = m ∧
    (∀ i, (i < m)%nat →
       sent !! i
       = servicelist cs !! ((p + i) mod length (servicelist cs))%nat) ∧
    NoDup sent ∧
    (∀ i : nat, (i + 1 < m)%nat → resp (Z.of_nat i) ≠ "SUCCESS"%string) ∧
    ((m < length (servicelist cs))%nat →
     resp (Z.of_nat (m - 1)) = "SUCCESS"%string) ∧
    (resp (Z.of_nat (m - 1)) = "SUCCESS"%string →
     ∃ cs0 svc0, final = res cs0 svc0 ∧ sent !! (m - 1)%nat = Some svc0 ∧
                 servicelist cs0 = servicelist cs).
Proof.
  intros Hil Hic Hwf Hnd Hn Hzero Hfree Hrnd.
  destruct (sample_rounds_run inc res resp Hil Hic rnd cs)
    as (p & m & cs0 & svc0 & sent & Hp & Hdraw & Hm & Hlen & Hcyc & Hearly
        & Hl0 & _ & Hend); try assumption.
  assert (NoDup sent) as Hnds.
  { apply (cyclic_NoDup (servicelist cs) sent p); [assumption|lia|].
    now rewrite Hlen. }
  destruct Hend as [(Hok & Hlast & Hrun)|(Hmn & Hnone & Hrun)].
  - exists p, m, (res cs0 svc0), sent. repeat (split; [assumption|]).
    split; [intros _; exact Hok|]. intros _. exists cs0, svc0. auto.
  - exists p, m, cs0, sent. repeat (split; [assumption|]).
    split; [intros Hlt; lia|]. intros Hok.
    exfalso. apply (Hnone (m - 1)%nat); [lia|exact Hok].
Qed.

(** X14: under the conditions of X13 (a well-formed pool of pairwise
    distinct endpoints without recorded failures, the mutex free, a
    uniform draw in its range, ledger updates that keep the list and the
    count), when every response is a failure, as with the stub of the
    sample, the loop sends exactly one request to every endpoint of the
    pool, in the cyclic order of the list from the endpoint of the first
    attempt, and leaves a state with the same list and count. *)
Theorem sample_all_failed_tries_each inc res resp rnd cs :
  (∀ c s, servicelist (inc c s) = servicelist c) →
  (∀ c s, numservices (inc c s) = numservices c) →
  cs_wf cs → NoDup (servicelist cs) → 1 <= numservices cs →
  no_failure cs → remutex cs = false → rand_in_range rnd →
  (∀ i : nat, (i < length (servicelist cs))%nat →
     resp (Z.of_nat i) ≠ "SUCCESS"%string) →
  ∃ (p : nat) final sent,
    sample_rounds inc res resp rnd cs = Returns (final, sent) ∧
    sent ≡ₚ servicelist cs ∧
    (p < length (servicelist cs))%nat ∧
    (2 <= numservices cs → Z.of_nat p = randomize rnd 0 (numservices cs)) ∧
    (∀ i, (i < length (servicelist cs))%nat →
       sent !! i
       = servicelist cs !! ((p + i) mod length (servicelist cs))%nat) ∧
    servicelist final = servicelist cs ∧ numservices final = numservices cs.
Proof.
  intros Hil Hic Hwf Hnd Hn Hzero Hfree Hrnd Hfail.
  destruct (sample_rounds_run inc res resp Hil Hic rnd cs)
    as (p & m & cs0 & svc0 & sent & Hp & Hdraw & Hm & Hlen & Hcyc & Hearly
        & Hl0 & Hn0 & Hend); try assumption.
  destruct Hend as [(Hok & _)|(Hmn & Hnone & Hrun)].
  - exfalso. apply (Hfail (m - 1)%nat); [lia|exact Hok].
  - exists p, cs0, sent. split; [exact Hrun|]. rewrite Hmn in *. split.
    + apply (cyclic_Permutation (servicelist cs) sent p);
        [assumption|assumption|now rewrite Hlen].
    + auto.
Qed.

(** ** The number of rounds of the search *)

Lemma findCeilIn_counted_round randx prefixes start end_ :
  findCeilIn_counted randx prefixes start end_ =
  if decide (start >= end_) then
    match read prefixes start with
    | Returns p => (Returns (if randx <=? p then start else -1), O)
    | Panics => (Panics, O)
    | Blocks => (Blocks, O)
    | Unspecified => (Unspecified, O)
    | Untracked => (Untracked, O)
    end
  else
    match read prefixes (start + Z.shiftr (end_ - start) 1) with
    | Returns p =>
        if decide (randx > p)
        then tick (findCeilIn_counted randx prefixes
                     (start + Z.shiftr (end_ - start) 1 + 1) end_)
        else tick (findCeilIn_counted randx prefixes
                     start (start + Z.shiftr (end_ - start) 1))
    | Panics => (Panics, 1%nat)
    | Blocks => (Blocks, 1%nat)
    | Unspecified => (Unspecified, 1%nat)
    | Untracked => (Untracked, 1%nat)
    end.
Proof.
  funelim (findCeilIn_counted randx prefixes start end_);
    repeat match goal with
           | H : decide _ = _ |- _ => rewrite H; clear H
           | H : read _ _ = _ |- _ => rewrite H; clear H
           end; reflexivity.
Qed.

Lemma findCeilIn_counted_result randx prefixes start end_ :
  fst (findCeilIn_counted randx prefixes start end_)
  = findCeilIn randx prefixes start end_.
Proof.
  funelim (findCeilIn randx prefixes start end_);
    rewrite findCeilIn_counted_round;
    repeat match goal with
           | H : decide _ = _ |- _ => rewrite H; clear H
           | H : read _ _ = _ |- _ => rewrite H; clear H
           end; simpl; auto.
Qed.

Lemma log2_up_half s m :
  1 <= s → 2 <= m → 2 * s <= m + 1 → Z.log2_up s + 1 <= Z.log2_up m.
Proof.
  intros Hs Hm Hsm.
  destruct (Z.log2_up_spec m ltac:(lia)) as [_ Hup].
  assert (0 < Z.log2_up m) as Hk by (apply Z.log2_up_pos; lia).
  assert (2 ^ Z.log2_up m = 2 * 2 ^ (Z.log2_up m - 1)) as Hpow.
  { rewrite <- Z.pow_succ_r by lia. f_equal. lia. }
  assert (Z.log2_up s <= Z.log2_up m - 1); [|lia].
  apply Z.log2_up_le_pow2; lia.
Qed.

(** X15: the search reads at most ceil(log2 (end - start + 1)) midpoints,
    whatever the array and the draw; the counted loop returns the result
    of [findCeilIn]. *)
Theorem findCeilIn_logarithmic randx prefixes start end_ :
  fst (findCeilIn_counted randx prefixes start end_)
    = findCeilIn randx prefixes start end_ ∧
  Z.of_nat (snd (findCeilIn_counted randx prefixes start end_))
    <= Z.log2_up (end_ - start + 1).
Proof.
  split; [apply findCeilIn_counted_result|].
  funelim (findCeilIn_counted randx prefixes start end_); simpl;
    try apply Z.log2_up_nonneg;
    try (assert (0 < Z.log2_up (end_ - start + 1));
         [apply Z.log2_up_pos; lia|lia]).
  - pose proof (mid_bounds start end_ ltac:(lia)) as Hmid.
    pose proof (log2_up_half
                  (end_ - (start + Z.shiftr (end_ - start) 1 + 1) + 1)
                  (end_ - start + 1)) as Hhalf.
    rewrite Z.shiftr_div_pow2 in * by lia. change (2 ^ 1) with 2 in *.
    pose proof (Z.mul_div_le (end_ - start) 2 ltac:(lia)).
    pose proof (Z.mul_succ_div_gt (end_ - start) 2 ltac:(lia)).
    lia.
  - pose proof (mid_bounds start end_ ltac:(lia)) as Hmid.
    pose proof (log2_up_half
                  (start + Z.shiftr (end_ - start) 1 - start + 1)
                  (end_ - start + 1)) as Hhalf.
    rewrite Z.shiftr_div_pow2 in * by lia. change (2 ^ 1) with 2 in *.
    pose proof (Z.mul_div_le (end_ - start) 2 ltac:(lia)).
    pose proof (Z.mul_succ_div_gt (end_ - start) 2 ltac:(lia)).
    lia.
Qed.


(** ** Draws outside their range *)

(** X16: in the weighted branch (two or more endpoints, the mutex free,
    no counter at 2^64 - 1, largest effective error other than 1, count
    times the largest effective error below 2^53), a draw above the
    total weight makes the search return -1 and the call falls back to
    the uniform draw; a draw below 1 selects position 0. *)
Theorem weighted_draw_out_of_range cs :
  cs_wf cs → no_wrap cs → 2 <= numservices cs → remutex cs = false →
  scan_maxerr cs ≠ 1 → exact_range cs →
  ∃ weights prefixes total,
    compute_weights cs (scan_maxerr cs) = Some weights ∧
    compute_prefixes cs weights = Some prefixes ∧
    read prefixes (numservices cs - 1) = Returns total ∧
    ∀ rnd prevservice,
      (total < randomize64 rnd 1 (total + 1) →
       SelectService rnd cs 0 prevservice = (uniform rnd cs, cs)) ∧
      (randomize64 rnd 1 (total + 1) < 1 →
       SelectService rnd cs 0 prevservice = (getIndexedService cs 0, cs)).
Proof.
  intros Hwf Hnw Hn Hfree Hbranch Hr. red in Hr.
  pose proof (scan_maxerr_nonneg cs) as Hm.
  destruct (weights_in_range cs _ Hwf Hnw Hm Hr) as (Hpos & Hsum & Hin).
  destruct (weighted_arrays cs _ Hwf Hnw ltac:(lia) Hm Hr)
    as (Hws & Hps & Htotal).
  pose proof (length_weights_of cs (scan_maxerr cs)) as Hlen.
  assert (weights_of cs (scan_maxerr cs) ≠ []) as Hwne.
  { intros Hnil. rewrite Hnil in Hlen. simpl in Hlen. red in Hwf. lia. }
  exists (Fint <$> weights_of cs (scan_maxerr cs)),
         (Fint <$> running 0 (weights_of cs (scan_maxerr cs))),
         (Zsum (weights_of cs (scan_maxerr cs))).
  split; [exact Hws|]. split; [exact Hps|]. split; [exact Htotal|].
  intros rnd prevservice.
  rewrite SelectService_first by assumption.
  destruct (Z.eqb_spec (scan_maxerr cs) 1); [contradiction|].
  rewrite weighted_finite by (assumption || lia).
  destruct (findCeilIn_search
              (randomize64 rnd 1 (Zsum (weights_of cs (scan_maxerr cs)) + 1))
              (Fint <$> running 0 (weights_of cs (scan_maxerr cs)))
              (running 0 (weights_of cs (scan_maxerr cs)))
              0 (numservices cs - 1) (converts_Fint _ Hin)
              (nondecreasing_reached _ _ (running_nondecreasing _ Hpos)))
    as (res & last & Hres & Hlast & Hfound & Hout);
    [lia|rewrite length_running; red in Hwf; lia|].
  red in Hwf. rewrite Hwf, <- Hlen, running_last in Hlast by assumption.
  injection Hlast as <-. rewrite Hres. simpl. split.
  - intros Habove. rewrite (Hout Habove). reflexivity.
  - intros Hbelow.
    pose proof (Zsum_nonneg _ Hpos).
    destruct (Hfound ltac:(lia)) as (Hrange & _ & Hsmall).
    destruct (Z.geb_spec res 0); [|lia].
    destruct (decide (res = 0)) as [->|Hnz]; [reflexivity|exfalso].
    pose proof (Hsmall 0 _ ltac:(lia)
                  (running_index (weights_of cs (scan_maxerr cs)) 0 ltac:(lia)))
      as Hlt.
    assert (0 <= Zsum (take 1 (weights_of cs (scan_maxerr cs))))
      by (apply Zsum_nonneg, Forall_take, Hpos).
    lia.
Qed.

(** X17: in the uniform branch (two or more endpoints, largest effective
    error 1) a draw outside [0, count) is caught by the accessor: the
    call returns the empty identifier with the [IndexOutOfRange] error,
    and the state is as before. *)
Theorem uniform_draw_out_of_range rnd cs prevservice :
  2 <= numservices cs → remutex cs = false → scan_maxerr cs = 1 →
  ¬ (0 <= randomize rnd 0 (numservices cs) < numservices cs) →
  SelectService rnd cs 0 prevservice
    = (Returns (""%string, Some IndexOutOfRange), cs).
Proof.
  intros Hn Hfree H1 Hout. rewrite SelectService_first by assumption.
  rewrite H1. simpl. unfold uniform.
  now rewrite getIndexedService_out_of_range.
Qed.

(** ** The share of every endpoint *)

(** X18: for two or more endpoints, no counter at 2^64 - 1, a largest
    effective error of at least 2 and count times the largest effective
    error below 2^53, the first attempt takes the weighted branch; the
    weight at position i is ceil(maxEffectiveError / (errorCount_i + 1)),
    the total weight is at least 1, and among the draws 1, ...,
    totalWeight exactly as many as the weight make the search over the
    running sums return i, the index whose endpoint is then returned. *)
Theorem weighted_draw_mass cs :
  cs_wf cs → no_wrap cs → 2 <= numservices cs →
  2 <= scan_maxerr cs → exact_range cs →
  let maxerr := scan_maxerr cs in
  (∀ rnd prevservice, remutex cs = false →
     SelectService rnd cs 0 prevservice = (weighted rnd cs maxerr, cs)) ∧
  ∃ weights prefixes total,
    compute_weights cs maxerr = Some weights ∧
    compute_prefixes cs weights = Some prefixes ∧
    read prefixes (numservices cs - 1) = Returns total ∧
    total = Zsum (weights_of cs maxerr) ∧ 1 <= total ∧
    (∀ rnd i, 0 <= i → selects prefixes i (randomize64 rnd 1 (total + 1)) →
       weighted rnd cs maxerr = getIndexedService cs i) ∧
    ∀ (i : nat) svc, servicelist cs !! i = Some svc →
      weights !! i = Some (Fint (ceil_div maxerr (errcnt_of cs svc + 1))) ∧
      draws_selecting prefixes total (Z.of_nat i)
        = ceil_div maxerr (errcnt_of cs svc + 1).
Proof.
  intros Hwf Hnw Hn Hm Hr maxerr. red in Hr. fold maxerr in Hm, Hr.
  destruct (weighted_arrays cs maxerr Hwf Hnw ltac:(lia) ltac:(lia) Hr)
    as (Hws & Hps & Htotal).
  pose proof (length_weights_of cs maxerr) as Hlen.
  split.
  - intros rnd prevservice Hfree. rewrite SelectService_first by assumption.
    fold maxerr. destruct (Z.eqb_spec maxerr 1); [lia|reflexivity].
  - exists (Fint <$> weights_of cs maxerr),
           (Fint <$> running 0 (weights_of cs maxerr)),
           (Zsum (weights_of cs maxerr)).
    split; [exact Hws|]. split; [exact Hps|]. split; [exact Htotal|].
    split; [reflexivity|].
    split.
    { pose proof (Zsum_ge_length _ (weights_of_pos cs maxerr Hnw ltac:(lia))).
      red in Hwf. lia. }
    split.
    { intros rnd i Hi Hsel. rewrite weighted_finite by (assumption || lia).
      unfold selects in Hsel.
      rewrite length_fmap, length_running, Hlen in Hsel.
      red in Hwf. rewrite <- Hwf in Hsel. rewrite Hsel. simpl.
      destruct (Z.geb_spec i 0); [reflexivity|lia]. }
    intros i svc Hsvc. split.
    + unfold weights_of. now rewrite !list_lookup_fmap, Hsvc.
    + now apply draws_of_position; [| |lia| |].
Qed.

(** X19: over two or more endpoints without recorded failures, with the
    mutex free, the largest effective error is 1 and the first attempt
    is the uniform draw, whatever [math.Pow] returns elsewhere; with the
    draw in its range, the endpoint at the draw is returned. *)
Theorem no_failure_uniform rnd cs prevservice :
  cs_wf cs → 2 <= numservices cs → remutex cs = false → no_failure cs →
  scan_maxerr cs = 1 ∧
  SelectService rnd cs 0 prevservice = (uniform rnd cs, cs) ∧
  (rand_in_range rnd →
   ∃ (i : nat) svc,
     servicelist cs !! i = Some svc ∧
     Z.of_nat i = randomize rnd 0 (numservices cs) ∧
     SelectService rnd cs 0 prevservice = (Returns (svc, None), cs)).
Proof.
  intros Hwf Hn Hfree Hzero.
  destruct (first_attempt_no_failure rnd cs prevservice Hwf Hn Hfree Hzero)
    as (H1 & Hsel).
  split; [exact H1|]. split; [exact Hsel|]. intros Hrnd.
  destruct (uniform_in_range rnd cs Hwf ltac:(lia) Hrnd)
    as (i & svc & Hsvc & Hi & Hu).
  exists i, svc. split; [exact Hsvc|]. split; [exact Hi|].
  now rewrite Hsel, Hu.
Qed.

(** X20: over a non-empty endpoint list in which the effective error of
    every endpoint with recorded failures is at least 2, the largest
    effective error is 1 exactly when no endpoint has a recorded
    failure; so a first attempt over two or more endpoints, with the
    mutex free, takes the uniform branch when no endpoint has a recorded
    failure and the weighted branch otherwise. *)
Theorem branch_by_failures cs :
  servicelist cs ≠ [] → penalised cs →
  (scan_maxerr cs = 1 ↔ no_failure cs) ∧
  (2 <= numservices cs → remutex cs = false →
   ∀ rnd prevservice,
     SelectService rnd cs 0 prevservice =
     (if decide (no_failure cs) then uniform rnd cs
      else weighted rnd cs (scan_maxerr cs), cs)).
Proof.
  intros Hne Hcount.
  assert (scan_maxerr cs = 1 ↔ no_failure cs) as Hiff.
  { split; [|now apply scan_maxerr_no_failure].
    intros H1. unfold no_failure, penalised in *.
    rewrite Forall_forall in *. intros svc Hin.
    destruct (decide (errcnt_of cs svc = 0)) as [Hz|Hnz]; [exact Hz|].
    pose proof (Hcount svc Hin Hnz) as H2. unfold scan_maxerr in H1.
    destruct (maxerr_fold_spec cs (servicelist cs) 0) as (_ & Hall & _).
    specialize (Hall svc Hin). cbv zeta in Hall. lia. }
  split; [exact Hiff|]. intros Hn Hfree rnd prevservice.
  rewrite SelectService_first by assumption.
  destruct (Z.eqb_spec (scan_maxerr cs) 1) as [H1|H1],
    (decide (no_failure cs)) as [Hz|Hz]; try reflexivity; exfalso; tauto.
Qed.

End harmonic.

(** * The theorems at concrete inputs *)

(** ** Runs of the model *)

Example findCeilIn_ex1 :
  findCeilIn 4 [Fint 3; Fint 5; Fint 6] 0 2 = Returns 1.
Proof. reflexivity. Qed.

Example findCeilIn_ex2 :
  findCeilIn 3 (Finite <$> mixed_entries) 1 3 = Returns 2.
Proof. reflexivity. Qed.

(** The conversion discards the fraction towards zero: the entry -1/2
    reaches the draw 0. *)
Example findCeilIn_ex3 :
  findCeilIn 0 [Finite (-1 # 2)] 0 0 = Returns 0.
Proof. reflexivity. Qed.

Example three_retry :
  fst (SelectService ideal_pow (const_rand 0 1) three 1 "s2")
  = Returns ("s0"%string, None).
Proof. vm_compute. reflexivity. Qed.

Example three_first :
  fst (SelectService ideal_pow (const_rand 0 9) three 0 "")
  = Returns ("s1"%string, None).
Proof. vm_compute. reflexivity. Qed.

Example sample_run :
  sample_rounds ideal_pow count_failure clear_failures always_failed
    (const_rand 1 1) fresh_three
  = Returns (count_failure (count_failure (count_failure fresh_three "s1")
                              "s2") "s0",
             ["s1"; "s2"; "s0"]%string).
Proof. vm_compute. reflexivity. Qed.

(** ** Facts about the concrete inputs *)

Lemma three_in_range :
  2 <= scan_maxerr ideal_pow three ∧ scan_maxerr ideal_pow three ≠ 1 ∧
  exact_range ideal_pow three.
Proof.
  split; [vm_compute; discriminate|]. split; [vm_compute; discriminate|].
  vm_compute. reflexivity.
Qed.

Lemma mixed_entries_in_int64 :
  Forall (λ q, in_int64 (truncate q)) mixed_entries.
Proof. repeat constructor; vm_compute; discriminate. Qed.

Lemma rising_entries_in_int64 :
  Forall (λ q, in_int64 (truncate q)) rising_entries.
Proof. repeat constructor; vm_compute; discriminate. Qed.

Lemma rising_entries_nondecreasing : Qnondecreasing rising_entries.
Proof.
  intros i j x y Hij Hx Hy.
  destruct i as [|[|[|i]]], j as [|[|[|j]]]; simpl in *;
    try discriminate; try lia;
    injection Hx as <-; injection Hy as <-; unfold Qle; simpl; lia.
Qed.

(** ** The claims *)

Lemma wrapped_weight_not_finite_witness :
  ideal_pow 2 = 2 ∧
  cs_wf wrapped_busy ∧ 2 <= numservices wrapped_busy ∧
  errcnt_of wrapped_busy "a" = 2 ^ 64 - 1 ∧
  scan_maxerr ideal_pow wrapped_busy = 2 ∧
  ceil_div (scan_maxerr ideal_pow wrapped_busy)
    (errcnt_of wrapped_busy "a" + 1) = 1 ∧
  compute_weights wrapped_busy (scan_maxerr ideal_pow wrapped_busy)
    = Some [NonFinite; Fint 1] ∧
  ∀ rnd prevservice,
    SelectService ideal_pow rnd wrapped_busy 0 prevservice
      = (Unspecified, wrapped_busy).
Proof.
  split; [reflexivity|].
  apply (wrapped_weight_not_finite ideal_pow). reflexivity.
Defined.

Lemma retry_deterministic_cyclic_witness :
  cs_wf three ∧ 0 < 2 ∧
  three.(servicelist) !! 2%nat = Some "s2"%string ∧
  ∃ svc,
    servicelist three !! Z.to_nat ((Z.of_nat 2 + 1) mod numservices three)
      = Some svc ∧
    SelectService ideal_pow (const_rand 0 1) three 2 "s2"
      = (Returns (svc, None), three).
Proof.
  split; [reflexivity|]. split; [lia|]. split; [reflexivity|].
  apply (proj1 (retry_deterministic_cyclic ideal_pow) (const_rand 0 1) three
           2 "s2"%string 2%nat).
  - reflexivity.
  - lia.
  - reflexivity.
  - intros q Hq. rewrite lookup_ge_None_2; [discriminate|simpl; lia].
Defined.

Lemma retry_never_repeats_witness :
  cs_wf three ∧ 1 < numservices three ∧ NoDup (servicelist three) ∧ 0 < 1 ∧
  ∃ svc,
    SelectService ideal_pow (const_rand 0 1) three 1 "s1"
      = (Returns (svc, None), three) ∧
    svc ≠ "s1"%string.
Proof.
  assert (NoDup (servicelist three)) as Hnd.
  { apply (bool_decide_unpack _). vm_compute. exact I. }
  split; [reflexivity|]. split; [reflexivity|]. split; [exact Hnd|].
  split; [lia|].
  apply (retry_never_repeats ideal_pow (const_rand 0 1) three 1 "s1"%string);
    [reflexivity|reflexivity|exact Hnd|lia].
Defined.

(** C5 as stated fails when an identifier occurs twice: in the pool
    a, a the retry after a returns a again. *)
Lemma retry_repeats_duplicate :
  cs_wf twins ∧ 1 < numservices twins ∧
  ∀ pow_floor,
    SelectService pow_floor (const_rand 0 1) twins 1 "a"
      = (Returns ("a"%string, None), twins).
Proof. repeat split. Qed.

Lemma no_endpoints_witness :
  numservices nobody = 0 ∧
  SelectService ideal_pow (const_rand 0 1) nobody 3 "s0"
    = (Returns (""%string, Some NoEndpoints), nobody).
Proof.
  split; [reflexivity|].
  apply (no_endpoints ideal_pow (const_rand 0 1) nobody 3 "s0"%string).
  reflexivity.
Defined.

Lemma single_endpoint_witness :
  cs_wf alone ∧ numservices alone = 1 ∧
  ∃ svc, servicelist alone = [svc] ∧
    ∀ rnd retryindex prevservice,
      SelectService ideal_pow rnd alone retryindex prevservice
        = (Returns (svc, None), alone).
Proof.
  split; [reflexivity|]. split; [reflexivity|].
  apply (single_endpoint ideal_pow alone); reflexivity.
Defined.

Lemma getIndexedService_bounds_witness :
  cs_wf three ∧ 0 <= 1 < numservices three ∧
  ((∃ svc, getIndexedService three 1 = Returns (svc, Some IndexOutOfRange))
     ↔ ¬ (0 <= 1 < numservices three)) ∧
  ∃ svc, servicelist three !! Z.to_nat 1 = Some svc ∧
         getIndexedService three 1 = Returns (svc, None).
Proof.
  assert (0 <= 1 < numservices three) as Hin
    by (vm_compute; split; discriminate || reflexivity).
  split; [reflexivity|]. split; [exact Hin|].
  split.
  - apply (proj1 (getIndexedService_bounds three 1)).
  - apply (proj2 (getIndexedService_bounds three 1)); [reflexivity|exact Hin].
Defined.

Lemma nonzero_attempt_is_retry_witness :
  2 <= numservices three ∧ -1 ≠ 0 ∧
  ∀ rnd,
    SelectService ideal_pow rnd three (-1) "s0" =
    (getIndexedService three
       (roundrobin (numservices three) (scan_prev three "s0")), three).
Proof.
  split; [vm_compute; discriminate|]. split; [lia|].
  apply (nonzero_attempt_is_retry ideal_pow three (-1) "s0"%string);
    [vm_compute; discriminate|lia].
Defined.

(** ** The further properties *)

Lemma findCeilIn_window_safe_witness :
  Forall (λ q, in_int64 (truncate q)) mixed_entries ∧
  0 <= 1 <= 3 ∧ 3 < Z.of_nat (length mixed_entries) ∧
  ∃ res, findCeilIn 2 (Finite <$> mixed_entries) 1 3 = Returns res ∧
    (res = -1 ∨
     (1 <= res <= 3 ∧
      ∃ q, index mixed_entries res = Some q ∧ 2 <= truncate q)) ∧
    ((∀ j q, 1 <= j <= 3 → index mixed_entries j = Some q → 2 <= truncate q) →
     res = 1) ∧
    ((∀ j q, 1 <= j <= 3 → index mixed_entries j = Some q → truncate q < 2) →
     res = -1).
Proof.
  split; [exact mixed_entries_in_int64|]. split; [lia|]. split; [simpl; lia|].
  apply (findCeilIn_window_safe 2 mixed_entries 1 3);
    [exact mixed_entries_in_int64|lia|simpl; lia].
Defined.

Lemma findCeilIn_window_smallest_witness :
  1 <= 9 ∧ Qnondecreasing rising_entries ∧
  Forall (λ q, in_int64 (truncate q)) rising_entries ∧
  0 <= 0 <= 2 ∧ 2 < Z.of_nat (length rising_entries) ∧
  ∃ res last,
    findCeilIn 9 (Finite <$> rising_entries) 0 2 = Returns res ∧
    index rising_entries 2 = Some last ∧
    ((inject_Z 9 <= last)%Q →
       0 <= res <= 2 ∧
       (∃ x, index rising_entries res = Some x ∧ (inject_Z 9 <= x)%Q) ∧
       ∀ j x, 0 <= j < res → index rising_entries j = Some x →
              (x < inject_Z 9)%Q) ∧
    (res = -1 ↔ (last < inject_Z 9)%Q).
Proof.
  split; [lia|]. split; [exact rising_entries_nondecreasing|].
  split; [exact rising_entries_in_int64|]. split; [lia|].
  split; [simpl; lia|].
  apply (findCeilIn_window_smallest 9 rising_entries 0 2);
    [lia|exact rising_entries_nondecreasing|exact rising_entries_in_int64
    |lia|simpl; lia].
Defined.

Lemma compute_prefixes_running_witness :
  Z.of_nat (length [Fint 8; Fint 2; Fint 8]) = numservices three ∧
  ∃ prefixes,
    compute_prefixes three [Fint 8; Fint 2; Fint 8] = Some prefixes ∧
    length prefixes = length [Fint 8; Fint 2; Fint 8] ∧
    prefixes !! 0%nat = [Fint 8; Fint 2; Fint 8] !! 0%nat ∧
    ∀ (i : nat) w p,
      [Fint 8; Fint 2; Fint 8] !! S i = Some w →
      prefixes !! i = Some p → prefixes !! S i = Some (fadd w p).
Proof.
  split; [reflexivity|].
  apply (compute_prefixes_running three [Fint 8; Fint 2; Fint 8]).
  reflexivity.
Defined.

Lemma weighted_bias_witness :
  cs_wf three ∧ no_wrap three ∧ 2 <= numservices three ∧
  2 <= scan_maxerr ideal_pow three ∧ exact_range ideal_pow three ∧
  ∃ weights prefixes total,
    compute_weights three (scan_maxerr ideal_pow three) = Some weights ∧
    compute_prefixes three weights = Some prefixes ∧
    read prefixes (numservices three - 1) = Returns total ∧
    ∀ (i : nat) svc, servicelist three !! i = Some svc →
      1 <= draws_selecting prefixes total (Z.of_nat i)
        <= scan_maxerr ideal_pow three ∧
      (errcnt_of three svc = 0 →
       draws_selecting prefixes total (Z.of_nat i)
         = scan_maxerr ideal_pow three) ∧
      (errcnt_of three svc ≠ 0 →
       draws_selecting prefixes total (Z.of_nat i)
         < scan_maxerr ideal_pow three) ∧
      ∀ (j : nat) svc', servicelist three !! j = Some svc' →
        errcnt_of three svc <= errcnt_of three svc' →
        draws_selecting prefixes total (Z.of_nat j)
          <= draws_selecting prefixes total (Z.of_nat i).
Proof.
  destruct three_in_range as (Hm & _ & Hr).
  split; [reflexivity|]. split; [exact no_wrap_three|].
  split; [vm_compute; discriminate|]. split; [exact Hm|]. split; [exact Hr|].
  apply (weighted_bias ideal_pow three);
    [reflexivity|exact no_wrap_three|vm_compute; discriminate|exact Hm
    |exact Hr].
Defined.

Lemma wrapped_counter_unspecified_witness :
  cs_wf wrapped_busy ∧ 2 <= numservices wrapped_busy ∧
  remutex wrapped_busy = false ∧
  Exists (λ svc, errcnt_of wrapped_busy svc = 2 ^ 64 - 1)
    (servicelist wrapped_busy) ∧
  scan_maxerr ideal_pow wrapped_busy ≠ 1 ∧
  SelectService ideal_pow (const_rand 1 1) wrapped_busy 0 "" = (Unspecified, wrapped_busy).
Proof.
  assert (Exists (λ svc, errcnt_of wrapped_busy svc = 2 ^ 64 - 1)
            (servicelist wrapped_busy)) as Hex.
  { apply Exists_cons_hd. reflexivity. }
  split; [reflexivity|]. split; [vm_compute; discriminate|].
  split; [reflexivity|]. split; [exact Hex|].
  split; [vm_compute; discriminate|].
  apply (wrapped_counter_unspecified ideal_pow (const_rand 1 1) wrapped_busy ""%string);
    [reflexivity|vm_compute; discriminate|reflexivity|exact Hex
    |vm_compute; discriminate].
Defined.

Lemma first_attempt_in_pool_witness :
  cs_wf three ∧ no_wrap three ∧ 1 <= numservices three ∧
  remutex three = false ∧ 1 <= scan_maxerr ideal_pow three ∧
  exact_range ideal_pow three ∧ rand_in_range low_rand ∧
  ∃ (i : nat) svc,
    servicelist three !! i = Some svc ∧ (Z.of_nat i < numservices three) ∧
    SelectService ideal_pow low_rand three 0 "" = (Returns (svc, None), three) ∧
    (numservices three = 1 → i = 0%nat) ∧
    (2 <= numservices three → scan_maxerr ideal_pow three = 1 →
     Z.of_nat i = randomize low_rand 0 (numservices three)) ∧
    (2 <= numservices three → scan_maxerr ideal_pow three ≠ 1 →
     ∃ weights prefixes total,
       compute_weights three (scan_maxerr ideal_pow three) = Some weights ∧
       compute_prefixes three weights = Some prefixes ∧
       read prefixes (numservices three - 1) = Returns total ∧
       selects prefixes (Z.of_nat i) (randomize64 low_rand 1 (total + 1))).
Proof.
  destruct three_in_range as (Hm & _ & Hr).
  assert (1 <= scan_maxerr ideal_pow three) as Hm1
    by (vm_compute; discriminate).
  split; [reflexivity|]. split; [exact no_wrap_three|].
  split; [vm_compute; discriminate|]. split; [reflexivity|].
  split; [exact Hm1|]. split; [exact Hr|]. split; [exact low_rand_in_range|].
  apply (first_attempt_in_pool ideal_pow low_rand three ""%string);
    [reflexivity|exact no_wrap_three|vm_compute; discriminate|reflexivity
    |exact Hm1|exact Hr|exact low_rand_in_range].
Defined.

Lemma retry_in_pool_witness :
  cs_wf three ∧ 1 <= numservices three ∧ 4 ≠ 0 ∧
  ∃ (i : nat) svc,
    servicelist three !! i = Some svc ∧
    SelectService ideal_pow low_rand three 4 "elsewhere" = (Returns (svc, None), three) ∧
    ("elsewhere"%string ∉ servicelist three → i = 0%nat).
Proof.
  split; [reflexivity|]. split; [vm_compute; discriminate|]. split; [lia|].
  apply (retry_in_pool ideal_pow low_rand three 4 "elsewhere"%string);
    [reflexivity|vm_compute; discriminate|lia].
Defined.

Lemma retry_reads_list_only_witness :
  servicelist three = servicelist three_held ∧
  numservices three = numservices three_held ∧ 1 ≠ 0 ∧ -2 ≠ 0 ∧
  fst (SelectService ideal_pow low_rand three 1 "s0")
  = fst (SelectService ideal_pow (const_rand 0 1) three_held (-2) "s0").
Proof.
  split; [reflexivity|]. split; [reflexivity|]. split; [lia|]. split; [lia|].
  apply (retry_reads_list_only ideal_pow low_rand (const_rand 0 1) three three_held
           1 (-2) "s0"%string); [reflexivity|reflexivity|lia|lia].
Defined.

Lemma sample_stops_at_first_success_witness :
  (∀ c s, servicelist (count_failure c s) = servicelist c) ∧
  (∀ c s, numservices (count_failure c s) = numservices c) ∧
  cs_wf fresh_three ∧ NoDup (servicelist fresh_three) ∧
  1 <= numservices fresh_three ∧ no_failure fresh_three ∧
  remutex fresh_three = false ∧ rand_in_range low_rand ∧
  ∃ (p m : nat) final sent,
    sample_rounds ideal_pow count_failure clear_failures (succeeds_at 1)
      low_rand fresh_three = Returns (final, sent) ∧
    (p < length (servicelist fresh_three))%nat ∧
    (2 <= numservices fresh_three →
     Z.of_nat p = randomize low_rand 0 (numservices fresh_three)) ∧
    (1 <= m <= length (servicelist fresh_three))%nat ∧ length sent = m ∧
    (∀ i, (i < m)%nat →
       sent !! i
       = servicelist fresh_three
           !! ((p + i) mod length (servicelist fresh_three))%nat) ∧
    NoDup sent ∧
    (∀ i : nat, (i + 1 < m)%nat →
       succeeds_at 1 (Z.of_nat i) ≠ "SUCCESS"%string) ∧
    ((m < length (servicelist fresh_three))%nat →
     succeeds_at 1 (Z.of_nat (m - 1)) = "SUCCESS"%string) ∧
    (succeeds_at 1 (Z.of_nat (m - 1)) = "SUCCESS"%string →
     ∃ cs0 svc0, final = clear_failures cs0 svc0 ∧
                 sent !! (m - 1)%nat = Some svc0 ∧
                 servicelist cs0 = servicelist fresh_three).
Proof.
  destruct fresh_three_facts as (Hwf & Hnd & Hn & Hzero & Hfree).
  split; [reflexivity|]. split; [reflexivity|].
  split; [exact Hwf|]. split; [exact Hnd|]. split; [exact Hn|].
  split; [exact Hzero|]. split; [exact Hfree|].
  split; [exact low_rand_in_range|].
  apply (sample_stops_at_first_success ideal_pow count_failure clear_failures
           (succeeds_at 1) low_rand fresh_three);
    [reflexivity|reflexivity|exact Hwf|exact Hnd|exact Hn|exact Hzero
    |exact Hfree|exact low_rand_in_range].
Defined.

Lemma sample_all_failed_tries_each_witness :
  (∀ c s, servicelist (count_failure c s) = servicelist c) ∧
  (∀ c s, numservices (count_failure c s) = numservices c) ∧
  cs_wf fresh_three ∧ NoDup (servicelist fresh_three) ∧
  1 <= numservices fresh_three ∧ no_failure fresh_three ∧
  remutex fresh_three = false ∧ rand_in_range low_rand ∧
  (∀ i : nat, (i < length (servicelist fresh_three))%nat →
     always_failed (Z.of_nat i) ≠ "SUCCESS"%string) ∧
  ∃ (p : nat) final sent,
    sample_rounds ideal_pow count_failure clear_failures always_failed
      low_rand fresh_three = Returns (final, sent) ∧
    sent ≡ₚ servicelist fresh_three ∧
    (p < length (servicelist fresh_three))%nat ∧
    (2 <= numservices fresh_three →
     Z.of_nat p = randomize low_rand 0 (numservices fresh_three)) ∧
    (∀ i, (i < length (servicelist fresh_three))%nat →
       sent !! i
       = servicelist fresh_three
           !! ((p + i) mod length (servicelist fresh_three))%nat) ∧
    servicelist final = servicelist fresh_three ∧
    numservices final = numservices fresh_three.
Proof.
  destruct fresh_three_facts as (Hwf & Hnd & Hn & Hzero & Hfree).
  assert (∀ i : nat, (i < length (servicelist fresh_three))%nat →
            always_failed (Z.of_nat i) ≠ "SUCCESS"%string) as Hfail
    by (intros i _; discriminate).
  split; [reflexivity|]. split; [reflexivity|].
  split; [exact Hwf|]. split; [exact Hnd|]. split; [exact Hn|].
  split; [exact Hzero|]. split; [exact Hfree|].
  split; [exact low_rand_in_range|]. split; [exact Hfail|].
  apply (sample_all_failed_tries_each ideal_pow count_failure clear_failures
           always_failed low_rand fresh_three);
    [reflexivity|reflexivity|exact Hwf|exact Hnd|exact Hn|exact Hzero
    |exact Hfree|exact low_rand_in_range|exact Hfail].
Defined.

Lemma weighted_draw_out_of_range_witness :
  cs_wf three ∧ no_wrap three ∧ 2 <= numservices three ∧
  remutex three = false ∧ scan_maxerr ideal_pow three ≠ 1 ∧
  exact_range ideal_pow three ∧
  ∃ weights prefixes total,
    compute_weights three (scan_maxerr ideal_pow three) = Some weights ∧
    compute_prefixes three weights = Some prefixes ∧
    read prefixes (numservices three - 1) = Returns total ∧
    ∀ rnd prevservice,
      (total < randomize64 rnd 1 (total + 1) →
       SelectService ideal_pow rnd three 0 prevservice
         = (uniform rnd three, three)) ∧
      (randomize64 rnd 1 (total + 1) < 1 →
       SelectService ideal_pow rnd three 0 prevservice
         = (getIndexedService three 0, three)).
Proof.
  destruct three_in_range as (_ & Hne & Hr).
  split; [reflexivity|]. split; [exact no_wrap_three|].
  split; [vm_compute; discriminate|]. split; [reflexivity|].
  split; [exact Hne|]. split; [exact Hr|].
  apply (weighted_draw_out_of_range ideal_pow three);
    [reflexivity|exact no_wrap_three|vm_compute; discriminate|reflexivity
    |exact Hne|exact Hr].
Defined.

Lemma uniform_draw_out_of_range_witness :
  2 <= numservices fresh_three ∧ remutex fresh_three = false ∧
  scan_maxerr ideal_pow fresh_three = 1 ∧
  ¬ (0 <= randomize (const_rand 7 1) 0 (numservices fresh_three)
       < numservices fresh_three) ∧
  SelectService ideal_pow (const_rand 7 1) fresh_three 0 ""
    = (Returns (""%string, Some IndexOutOfRange), fresh_three).
Proof.
  assert (¬ (0 <= randomize (const_rand 7 1) 0 (numservices fresh_three)
               < numservices fresh_three)) as Hout by (simpl; lia).
  split; [vm_compute; discriminate|]. split; [reflexivity|].
  split; [reflexivity|]. split; [exact Hout|].
  apply (uniform_draw_out_of_range ideal_pow (const_rand 7 1) fresh_three ""%string);
    [vm_compute; discriminate|reflexivity|reflexivity|exact Hout].
Defined.

Lemma weighted_draw_mass_witness :
  cs_wf three ∧ no_wrap three ∧ 2 <= numservices three ∧
  2 <= scan_maxerr ideal_pow three ∧ exact_range ideal_pow three ∧
  (∀ rnd prevservice, remutex three = false →
     SelectService ideal_pow rnd three 0 prevservice
       = (weighted rnd three (scan_maxerr ideal_pow three), three)) ∧
  ∃ weights prefixes total,
    compute_weights three (scan_maxerr ideal_pow three) = Some weights ∧
    compute_prefixes three weights = Some prefixes ∧
    read prefixes (numservices three - 1) = Returns total ∧
    total = Zsum (weights_of three (scan_maxerr ideal_pow three)) ∧
    1 <= total ∧
    (∀ rnd i, 0 <= i → selects prefixes i (randomize64 rnd 1 (total + 1)) →
       weighted rnd three (scan_maxerr ideal_pow three)
         = getIndexedService three i) ∧
    ∀ (i : nat) svc, servicelist three !! i = Some svc →
      weights !! i
        = Some (Fint (ceil_div (scan_maxerr ideal_pow three)
                        (errcnt_of three svc + 1))) ∧
      draws_selecting prefixes total (Z.of_nat i)
        = ceil_div (scan_maxerr ideal_pow three) (errcnt_of three svc + 1).
Proof.
  destruct three_in_range as (Hm & _ & Hr).
  split; [reflexivity|]. split; [exact no_wrap_three|].
  split; [vm_compute; discriminate|]. split; [exact Hm|]. split; [exact Hr|].
  apply (weighted_draw_mass ideal_pow three);
    [reflexivity|exact no_wrap_three|vm_compute; discriminate|exact Hm
    |exact Hr].
Defined.

Lemma no_failure_uniform_witness :
  cs_wf fresh_three ∧ 2 <= numservices fresh_three ∧
  remutex fresh_three = false ∧ no_failure fresh_three ∧
  scan_maxerr ideal_pow fresh_three = 1 ∧
  SelectService ideal_pow low_rand fresh_three 0 ""
    = (uniform low_rand fresh_three, fresh_three) ∧
  (rand_in_range low_rand →
   ∃ (i : nat) svc,
     servicelist fresh_three !! i = Some svc ∧
     Z.of_nat i = randomize low_rand 0 (numservices fresh_three) ∧
     SelectService ideal_pow low_rand fresh_three 0 ""
       = (Returns (svc, None), fresh_three)).
Proof.
  destruct fresh_three_facts as (Hwf & _ & _ & Hzero & Hfree).
  split; [exact Hwf|]. split; [vm_compute; discriminate|].
  split; [exact Hfree|]. split; [exact Hzero|].
  apply (no_failure_uniform ideal_pow low_rand fresh_three ""%string);
    [exact Hwf|vm_compute; discriminate|exact Hfree|exact Hzero].
Defined.

Lemma branch_by_failures_witness :
  servicelist three ≠ [] ∧ penalised ideal_pow three ∧
  (scan_maxerr ideal_pow three = 1 ↔ no_failure three) ∧
  (2 <= numservices three → remutex three = false →
   ∀ rnd prevservice,
     SelectService ideal_pow rnd three 0 prevservice =
     (if decide (no_failure three) then uniform rnd three
      else weighted rnd three (scan_maxerr ideal_pow three), three)).
Proof.
  assert (penalised ideal_pow three) as Hcount.
  { apply (bool_decide_unpack _). vm_compute. exact I. }
  split; [discriminate|]. split; [exact Hcount|].
  apply (branch_by_failures ideal_pow three); [discriminate|exact Hcount].
Defined.
